(** * devstats [cmd/get_repos]: a shallow embedding and its verification

    The development follows [cmd/get_repos/get_repos.go]:
    - Go values: strings, slices of strings, [int] as [Z];
    - [Outcome]: a call returns, ends the process through
      [lib.FatalOnError], or panics;
    - [dirExists], [getRepos], [processRepo], [processCommitsDB];
    - the dispatch loops of [processRepos] and [processCommits] as a
      labelled transition system over goroutines and unbuffered channels;
    - the report at the end of [processRepos]. *)

From Stdlib Require Import ZArith Lia Ascii DecimalString.
From Stdlib Require String.
From stdpp Require Import gmap strings list fin_maps sorting.

Local Open Scope Z_scope.

(** ** Go values *)

(** A Go [error] value is modelled by its message; [nil] is [None]. *)
Definition error : Type := string.

(** The line feed written [\n] in the Go source. *)
Definition LF : string := String "010"%char "".

(** [len(s)] of a Go string: the number of bytes, as an [int]. *)
Definition len (s : string) : Z := Z.of_nat (String.length s).

(** How a call ends. [Fatal] is the process-terminating branch of
    [lib.FatalOnError]; [Panic] is a Go run-time panic. *)
Inductive Outcome (A : Type) : Type :=
| Ok (a : A)
| Fatal (e : error)
| Panic (msg : string).
Arguments Ok {A} a.
Arguments Fatal {A} e.
Arguments Panic {A} msg.

Global Instance outcome_bind : MBind Outcome := fun A B k m =>
  match m with
  | Ok a => k a
  | Fatal e => Fatal e
  | Panic msg => Panic msg
  end.

(** Modelled from the spec: [lib.FatalOnError] of package [devstats],
    which is not among the sources. Section 6 of the specification: a
    fatal condition terminates the process immediately with a non-zero
    status after logging the cause. A [nil] error lets the caller go on. *)
Definition FatalOnError (err : option error) : Outcome unit :=
  match err with
  | None => Ok tt
  | Some e => Fatal e
  end.

(** The slice expression [s[lo:hi]] on a string: Go panics unless
    [0 <= lo <= hi <= len(s)]. *)
Definition slice (s : string) (lo hi : Z) : Outcome string :=
  if (0 <=? lo) && (lo <=? hi) && (hi <=? len s)
  then Ok (String.substring (Z.to_nat lo) (Z.to_nat (hi - lo)) s)
  else Panic "slice bounds out of range".

(** [strings.Split(s, sep)] for a one-byte separator: the pieces between
    the occurrences of [sep], one more than there are occurrences. *)
Fixpoint Split (s : string) (sep : ascii) : list string :=
  match s with
  | EmptyString => [""]
  | String a s' =>
      if Ascii.eqb a sep then "" :: Split s' sep
      else match Split s' sep with
           | w :: ws => String a w :: ws
           | [] => [String a ""]
           end
  end.

(** [%d] of an [int]. *)
Definition fmt_d (n : Z) : string := NilZero.string_of_int (Z.to_int n).

(** [%06d] of a non-negative [int]: zero padded to six digits. *)
Fixpoint zeros (n : nat) : string :=
  match n with
  | O => ""
  | S n' => String "0"%char (zeros n')
  end.
Definition fmt_06d (n : Z) : string :=
  let d := fmt_d n in
  zeros (6 - String.length d) +:+ d.

(** [sort.Strings]: increasing byte-wise order. *)
Definition sort_Strings (l : list string) : list string :=
  merge_sort String.le l.

(** ** The file system as [os.Stat] sees it *)

(** What [os.Stat] returns: a [FileInfo] (of which only [IsDir] is read)
    or an error, for which [os.IsNotExist] holds or not. *)
Inductive StatResult : Type :=
| StatInfo (isDir : bool)
| StatError (e : error) (isNotExist : bool).

Definition Stat : Type := string → StatResult.

(** ** [dirExists] *)

Definition dirExists (stat : Stat) (path : string) : Outcome (bool * option error) :=
  last ← slice path (len path - 1) (len path);
  path' ← (if String.eqb last "/" then slice path 0 (len path - 1) else Ok path);
  match stat path' with
  | StatError e isNotExist =>
      if isNotExist then Ok (false, None) else Ok (false, Some e)
  | StatInfo isDir =>
      if isDir then Ok (true, None)
      else Ok (false, Some (path' +:+ ": exists, but is not a directory"))
  end.

(** The path [dirExists] hands to [os.Stat]: [path] without one trailing
    separator. *)
Definition statPath (path : string) : string :=
  match slice path (len path - 1) (len path) with
  | Ok last =>
      if String.eqb last "/"
      then match slice path 0 (len path - 1) with Ok p => p | _ => path end
      else path
  | _ => path
  end.

(** Lines 161-171 and 182-192 of [processRepos]: make sure the
    directory [wd] is there, creating it when absent. [before] and [after]
    are what [os.Stat] answers before and after the [os.Mkdir] call, whose
    result is [mkdir]. *)
Definition ensureDir (before : Stat) (mkdir : option error) (after : Stat)
    (wd : string) : Outcome unit :=
  '(exists_, err) ← dirExists before wd;
  FatalOnError err;;
  if negb exists_ then
    FatalOnError mkdir;;
    '(exists_, err) ← dirExists after wd;
    FatalOnError err;;
    if negb exists_
    then FatalOnError (Some ("failed to create directory: " +:+ wd))
    else Ok tt
  else Ok tt.

(** ** The context and the outside world *)

(** Modelled from the spec: the fields of [lib.Ctx] that this program
    reads or writes (section 6, process environment: local mode, debug
    verbosity, root directory of the mirrors, the flag gating the dump
    for the external tool). [ExecFatal] and [ExecQuiet] are the two
    fields [processRepos] assigns. *)
Record Ctx : Type := mkCtx {
  Local : bool;
  Debug : Z;
  ExecFatal : bool;
  ExecQuiet : bool;
  ReposDir : string;
  ExternalInfo : bool;
  ProcessRepos : bool;
  ProcessCommits : bool
}.

Definition set_exec (ctx : Ctx) (fatal quiet : bool) : Ctx :=
  {| Local := Local ctx; Debug := Debug ctx; ExecFatal := fatal;
     ExecQuiet := quiet; ReposDir := ReposDir ctx;
     ExternalInfo := ExternalInfo ctx; ProcessRepos := ProcessRepos ctx;
     ProcessCommits := ProcessCommits ctx |}.

(** Modelled from the spec: [lib.Project] and [lib.AllProjects], the
    parsed manifest: a list of projects, each naming a target shard and
    a disabled flag. *)
Record Project : Type := mkProject { PDB : string; Disabled : bool }.
Record AllProjects : Type := mkAllProjects { Projects : list Project }.

(** A row of a result set: its column values, or the error [rows.Scan]
    reports for it. *)
Inductive Row : Type :=
| RowCols (cols : list string)
| RowBad (e : error).

(** What [con.Query] gives: an error, or the rows that [rows.Next]
    walks through and the final [rows.Err()]. *)
Inductive QueryResult : Type :=
| QueryError (e : error)
| QueryRows (rows : list Row) (rowsErr : option error).

(** The answers of the outside world to one goroutine. *)
Record World : Type := mkWorld {
  w_readFile : string → error + string;        (* ioutil.ReadFile *)
  w_unmarshal : string → error + AllProjects;  (* yaml.Unmarshal *)
  w_query : string → string → QueryResult;     (* database, SQL text *)
  w_stat : Stat;                               (* os.Stat *)
  w_exec : list string → option error;         (* the subprocess fails? *)
  w_took : string                              (* dtEnd.Sub(dtStart), as %v prints it *)
}.

(** [rows.Scan(&a)] and [rows.Scan(&a, &b)]. *)
Definition scan1 (r : Row) : string + error :=
  match r with
  | RowCols [a] => inl a
  | RowCols _ => inr "sql: expected destination arguments in Scan"
  | RowBad e => inr e
  end.

Definition scan2 (r : Row) : (string * string) + error :=
  match r with
  | RowCols [a; b] => inl (a, b)
  | RowCols _ => inr "sql: expected destination arguments in Scan"
  | RowBad e => inr e
  end.

(** ** [getRepos] *)

(** Lines 49-54: the set of databases of the enabled projects. *)
Definition enabledDBs (projects : AllProjects) : gmap string bool :=
  foldl (fun dbs proj => if Disabled proj then dbs else <[PDB proj := true]> dbs)
        ∅ (Projects projects).

(** Lines 70-73: [for rows.Next() { FatalOnError(rows.Scan(&repo)); ... }]. *)
Fixpoint scanRepos (rows : list Row) (repos : list string) : Outcome (list string) :=
  match rows with
  | [] => Ok repos
  | r :: rows' =>
      match scan1 r with
      | inl repo => scanRepos rows' (repos ++ [repo])
      | inr e => Fatal e
      end
  end.

(** Lines 78-88: one identifier enters the map. *)
Definition addRepo (allRepos : gmap string (list string)) (repo : string)
    : Outcome (gmap string (list string)) :=
  let ary := Split repo "/" in
  (if decide (Z.of_nat (length ary) ≠ 2)
   then FatalOnError (Some ("invalid repo name: " +:+ repo))
   else Ok tt);;
  match ary with
  | org :: _ =>
      let allRepos1 :=
        match allRepos !! org with
        | Some _ => allRepos
        | None => <[org := []]> allRepos
        end in
      let ary' := default [] (allRepos1 !! org) ++ [repo] in
      Ok (<[org := ary']> allRepos1)
  | [] => Panic "index out of range"
  end.

(** Lines 77-89. *)
Fixpoint addRepos (allRepos : gmap string (list string)) (repos : list string)
    : Outcome (gmap string (list string)) :=
  match repos with
  | [] => Ok allRepos
  | repo :: repos' =>
      allRepos' ← addRepo allRepos repo;
      addRepos allRepos' repos'
  end.

Definition reposQuery : string :=
  "select distinct name from gha_repos where name like '%/%'".

(** Lines 58-89: the body of [for db := range dbs]. *)
Definition indexDB (w : World) (allRepos : gmap string (list string)) (db : string)
    : Outcome (gmap string (list string)) :=
  match w_query w db reposQuery with
  | QueryError e => Fatal e
  | QueryRows rows rowsErr =>
      repos ← scanRepos rows [];
      FatalOnError rowsErr;;
      addRepos allRepos repos
  end.

Fixpoint indexDBs (w : World) (allRepos : gmap string (list string)) (dbs : list string)
    : Outcome (gmap string (list string)) :=
  match dbs with
  | [] => Ok allRepos
  | db :: dbs' =>
      allRepos' ← indexDB w allRepos db;
      indexDBs w allRepos' dbs'
  end.

Definition sum_outcome {A : Type} (r : error + A) : Outcome A :=
  match r with
  | inl e => Fatal e
  | inr a => Ok a
  end.

(** Lines 37-40 and 313-316. [DataDir] is the constant [lib.DataDir]. *)
Definition dataPrefix (DataDir : string) (ctx : Ctx) : string :=
  if Local ctx then "./" else DataDir.

(** [getRepos]. Go leaves the order of [range] over a map open: [order]
    is the order in which this run walks through the keys of [dbs], and
    is meaningful when it is a permutation of them. *)
Definition getRepos (DataDir : string) (w : World) (ctx : Ctx) (order : list string)
    : Outcome (gmap string bool * gmap string (list string)) :=
  data ← sum_outcome (w_readFile w (dataPrefix DataDir ctx +:+ "projects.yaml"));
  projects ← sum_outcome (w_unmarshal w data);
  let dbs := enabledDBs projects in
  allRepos ← indexDBs w ∅ order;
  Ok (dbs, allRepos).

(** The iteration orders [range dbs] can take. *)
Definition rangeOrder {V : Type} (m : gmap string V) (order : list string) : Prop :=
  order ≡ₚ (map_to_list m).*1.

(** ** Goroutine bodies: what they do, in order *)

(** What a goroutine does that the outside can see. [V] is the element
    type of its result channel. *)
Inductive Event (V : Type) : Type :=
| EvLog (msg : string)                                      (* lib.Printf *)
| EvStdout (msg : string)                                   (* fmt.Printf *)
| EvStderr (msg : string)                                   (* fmt.Fprintf(os.Stderr, ...) *)
| EvExec (cmdAndArgs : list string) (env : list (string * string))
| EvQuery (db query : string)                               (* con.Query *)
| EvSend (v : V).                                           (* ch <- v *)
Arguments EvLog {V} msg.
Arguments EvStdout {V} msg.
Arguments EvStderr {V} msg.
Arguments EvExec {V} cmdAndArgs env.
Arguments EvQuery {V} db query.
Arguments EvSend {V} v.

(** A computation that leaves a trace of events and ends as an
    [Outcome]. *)
Record Proc (V A : Type) : Type := mkProc {
  trace : list (Event V);
  outcome : Outcome A
}.
Arguments mkProc {V A} trace outcome.
Arguments trace {V A} p.
Arguments outcome {V A} p.

Global Instance proc_ret {V} : MRet (Proc V) := fun A a => mkProc [] (Ok a).

Global Instance proc_bind {V} : MBind (Proc V) := fun A B k m =>
  match outcome m with
  | Ok a => mkProc (trace m ++ trace (k a)) (outcome (k a))
  | Fatal e => mkProc (trace m) (Fatal e)
  | Panic msg => mkProc (trace m) (Panic msg)
  end.

Definition emit {V} (e : Event V) : Proc V unit := mkProc [e] (Ok tt).
Definition lift {V A} (o : Outcome A) : Proc V A := mkProc [] o.
Definition when {V} (b : bool) (p : Proc V unit) : Proc V unit :=
  if b then p else mret tt.

(** [defer d] ahead of [body]: [d] runs when [body] returns and when it
    panics; a process that [lib.FatalOnError] has terminated runs no
    deferred call. *)
Definition defer {V A} (d : Proc V unit) (body : Proc V A) : Proc V A :=
  match outcome body with
  | Ok a => mkProc (trace body ++ trace d)
              (match outcome d with Ok _ => Ok a | Fatal e => Fatal e | Panic m => Panic m end)
  | Panic msg => mkProc (trace body ++ trace d) (Panic msg)
  | Fatal e => mkProc (trace body) (Fatal e)
  end.

(** Modelled from the spec: [lib.Printf], the structured log. *)
Definition Printf {V} (msg : string) : Proc V unit := emit (EvLog msg).

(** Modelled from the spec: [lib.ExecCommand]. Section 6: the binary is
    invoked as a subprocess; a non-zero exit or execution error is
    handed back as the unit's failure. The comment at the head of
    [processRepos] (non-fatal exec mode) says that with [ExecFatal] set
    the failure ends the process instead. *)
Definition ExecCommand {V} (w : World) (ctx : Ctx) (cmdAndArgs : list string)
    (env : list (string * string)) : Proc V (option error) :=
  emit (EvExec cmdAndArgs env);;
  match w_exec w cmdAndArgs with
  | None => mret None
  | Some e => if ExecFatal ctx then lift (Fatal e) else mret (Some e)
  end.

Definition gitEnv : list (string * string) := [("GIT_TERMINAL_PROMPT", "0")].

Definition cloneCmd (orgRepo rwd : string) : list string :=
  ["git"; "clone"; "https://github.com/" +:+ orgRepo +:+ ".git"; rwd].

Definition pullCmd (rwd : string) : list string := ["git_reset_pull.sh"; rwd].

(** ** [processRepo] *)

(** Each branch yields [true] when the Go code has sent the empty string
    and returned from inside the branch. *)
Definition processRepo (w : World) (ctx : Ctx) (orgRepo rwd : string) : Proc string unit :=
  '(exists_, err) ← lift (dirExists (w_stat w) rwd);
  lift (FatalOnError err);;
  returned ←
    (if negb exists_ then
       when (0 <? Debug ctx) (Printf ("Cloning " +:+ orgRepo +:+ LF));;
       res ← ExecCommand w ctx (cloneCmd orgRepo rwd) gitEnv;
       match res with
       | Some e =>
           let msg := "Warining git-clone failed: " +:+ orgRepo +:+ " (took "
                        +:+ w_took w +:+ "): " +:+ e +:+ LF in
           when (0 <? Debug ctx) (Printf msg);;
           emit (EvStderr msg);;
           emit (EvSend "");;
           mret true
       | None =>
           when (0 <? Debug ctx)
             (Printf ("Cloned " +:+ orgRepo +:+ ": took " +:+ w_took w +:+ LF));;
           mret false
       end
     else
       when (0 <? Debug ctx) (Printf ("Pulling " +:+ orgRepo +:+ LF));;
       res ← ExecCommand w ctx (pullCmd rwd) gitEnv;
       match res with
       | Some e =>
           let msg := "Warining git-reset failed: " +:+ orgRepo +:+ " (took "
                        +:+ w_took w +:+ "): " +:+ e +:+ LF in
           when (0 <? Debug ctx) (Printf msg);;
           emit (EvStderr msg);;
           emit (EvSend "");;
           mret true
       | None =>
           when (0 <? Debug ctx)
             (Printf ("Pulled " +:+ orgRepo +:+ ": took " +:+ w_took w +:+ LF));;
           mret false
       end);
  if returned : bool then mret tt else emit (EvSend orgRepo).

(** ** [processCommitsDB] *)

(** Lines 283-286: [shas = append(shas, [2]string{repo, sha})]. *)
Fixpoint scanShas (rows : list Row) (shas : list (string * string))
    : Outcome (list (string * string)) :=
  match rows with
  | [] => Ok shas
  | r :: rows' =>
      match scan2 r with
      | inl (sha, repo) => scanShas rows' (shas ++ [(repo, sha)])
      | inr e => Fatal e
      end
  end.

(** Lines 292-304: the placeholder loop over the commits. *)
Fixpoint printCommits {V} (db : string) (i : Z) (shas : list (string * string))
    : Proc V unit :=
  match shas with
  | [] => mret tt
  | (repo, sha) :: shas' =>
      emit (EvStdout ("Processing commit " +:+ fmt_06d i +:+ " " +:+ db +:+ ":"
                        +:+ repo +:+ ":" +:+ sha +:+ LF));;
      printCommits db (i + 1) shas'
  end.

Definition processCommitsDB (w : World) (ctx : Ctx) (db query : string) : Proc bool unit :=
  when (0 <? Debug ctx) (Printf ("Running on database: " +:+ db +:+ LF));;
  defer (emit (EvSend true))
    (emit (EvQuery db query);;
     match w_query w db query with
     | QueryError e => lift (Fatal e)
     | QueryRows rows rowsErr =>
         shas ← lift (scanShas rows []);
         lift (FatalOnError rowsErr);;
         when (0 <? Debug ctx)
           (Printf ("Database '" +:+ db +:+ "' processed in " +:+ w_took w
                      +:+ ", commits: " +:+ fmt_d (Z.of_nat (length shas)) +:+ LF));;
         printCommits db 0 shas
     end).

(** The values a goroutine has put on its channel. *)
Fixpoint sends {V} (tr : list (Event V)) : list V :=
  match tr with
  | [] => []
  | EvSend v :: tr' => v :: sends tr'
  | _ :: tr' => sends tr'
  end.

(** What the dispatcher receives from a goroutine that ran [p]: the one
    value it sent. A goroutine that ends without a send, or with more
    than one, leaves the program blocked; Go's run time reports that. *)
Definition reply {V} (p : Proc V unit) : Outcome V :=
  match outcome p with
  | Ok _ =>
      match sends (trace p) with
      | [v] => Ok v
      | _ => Panic "all goroutines are asleep - deadlock!"
      end
  | Fatal e => Fatal e
  | Panic msg => Panic msg
  end.

(** ** The dispatch loop: goroutines, channels and the window

    [processRepos] (lines 174-218) and [processCommits] (lines 324-338)
    run the same loop: make a channel, append it to [chanPool], start the
    goroutine, and when [len(chanPool) == thrN] receive from
    [chanPool[0]] and drop it; after the loop receive from every channel
    left in [chanPool], in order. The machine below interleaves the
    dispatcher with its goroutines; a channel is the index of its
    goroutine in [units]. *)

(** What the dispatcher still has to do inside its loop. [ISeq] is
    sequential code of the dispatcher between two spawns, which may end
    the process. *)
Inductive Instr (Item SeqObs : Type) : Type :=
| ISeq (body : SeqObs → Outcome unit)
| ISpawn (it : Item).
Arguments ISeq {Item SeqObs} body.
Arguments ISpawn {Item SeqObs} it.

(** A goroutine is at work, or blocked in its send on the unbuffered
    channel, or through: its value has been received. *)
Inductive UnitState (Res : Type) : Type :=
| Running
| Sending (r : Res)
| Done (r : Res).
Arguments Running {Res}.
Arguments Sending {Res} r.
Arguments Done {Res} r.

(** Where the dispatcher is. *)
Inductive Pc : Type :=
| PcLoop       (* at the head of the loop body *)
| PcAwait      (* blocked in [<-ch] inside the loop: the window is full *)
| PcDrain      (* in the loop over the channels that are left *)
| PcReturned   (* the pool is done *)
| PcAborted.   (* the process is dead *)

Record Pool (Item Res Acc SeqObs : Type) : Type := mkPool {
  pc : Pc;
  todo : list (Instr Item SeqObs);
  chanPool : list nat;
  units : list (Item * UnitState Res);
  acc : Acc
}.
Arguments mkPool {Item Res Acc SeqObs} pc todo chanPool units acc.
Arguments pc {Item Res Acc SeqObs} p.
Arguments todo {Item Res Acc SeqObs} p.
Arguments chanPool {Item Res Acc SeqObs} p.
Arguments units {Item Res Acc SeqObs} p.
Arguments acc {Item Res Acc SeqObs} p.

(** One step of the program, and what the outside world answered. *)
Inductive Label (SeqObs Obs : Type) : Type :=
| LSeq (o : SeqObs)            (* the dispatcher runs its sequential code *)
| LSpawn                       (* the dispatcher starts the next goroutine *)
| LFinish (c : nat) (o : Obs)  (* goroutine [c] runs up to its send *)
| LRecv                        (* the dispatcher receives from [chanPool[0]] *)
| LEndLoop                     (* the dispatch loop is over *)
| LReturn.                     (* nothing is left to receive *)
Arguments LSeq {SeqObs Obs} o.
Arguments LSpawn {SeqObs Obs}.
Arguments LFinish {SeqObs Obs} c o.
Arguments LRecv {SeqObs Obs}.
Arguments LEndLoop {SeqObs Obs}.
Arguments LReturn {SeqObs Obs}.

(** An instruction the dispatcher can get past. *)
Definition passable {Item SeqObs : Type} (i : Instr Item SeqObs) : Prop :=
  match i with
  | ISeq body => ∃ o, body o = Ok tt
  | ISpawn _ => True
  end.

(** An instruction that goes through when the outside answers [obsS]
    to the dispatcher and [obsU] to the goroutine. *)
Definition benign {Item Res SeqObs Obs : Type} (unit_run : Item → Obs → Outcome Res)
    (obsS : SeqObs) (obsU : Obs) (i : Instr Item SeqObs) : Prop :=
  match i with
  | ISeq body => body obsS = Ok tt
  | ISpawn it => ∃ r, unit_run it obsU = Ok r
  end.

Section Pool.
Context {Item Res Acc SeqObs Obs : Type}.
(** [lib.GetThreadsNum(ctx)] *)
Variable thrN : Z.
(** the goroutine body: the value it sends, or how it ends the process *)
Variable unit_run : Item → Obs → Outcome Res.
(** bookkeeping of the dispatcher after a spawn and after a receive *)
Variable spawned : Acc → Acc.
Variable collect : Acc → Res → Acc.

Local Abbreviation PoolT := (Pool Item Res Acc SeqObs).

Definition set_pc (s : PoolT) (p : Pc) : PoolT :=
  mkPool p (todo s) (chanPool s) (units s) (acc s).

Definition step (s : PoolT) (l : Label SeqObs Obs) : option PoolT :=
  match l, pc s with
  | LSeq o, PcLoop =>
      match todo s with
      | ISeq body :: rest =>
          match body o with
          | Ok _ => Some (mkPool PcLoop rest (chanPool s) (units s) (acc s))
          | _ => Some (set_pc s PcAborted)
          end
      | _ => None
      end
  | LSpawn, PcLoop =>
      match todo s with
      | ISpawn it :: rest =>
          let ch := length (units s) in
          let chanPool' := chanPool s ++ [ch] in
          Some (mkPool
                  (if decide (Z.of_nat (length chanPool') = thrN) then PcAwait else PcLoop)
                  rest chanPool' (units s ++ [(it, Running)]) (spawned (acc s)))
      | _ => None
      end
  | LFinish c o, (PcLoop | PcAwait | PcDrain) =>
      match units s !! c with
      | Some (it, Running) =>
          match unit_run it o with
          | Ok r => Some (mkPool (pc s) (todo s) (chanPool s)
                            (<[c := (it, Sending r)]> (units s)) (acc s))
          | _ => Some (set_pc s PcAborted)
          end
      | _ => None
      end
  | LRecv, (PcAwait | PcDrain) =>
      match chanPool s with
      | ch :: rest =>
          match units s !! ch with
          | Some (it, Sending r) =>
              Some (mkPool (match pc s with PcAwait => PcLoop | p => p end)
                      (todo s) rest (<[ch := (it, Done r)]> (units s))
                      (collect (acc s) r))
          | _ => None
          end
      | [] => None
      end
  | LEndLoop, PcLoop =>
      match todo s with
      | [] => Some (set_pc s PcDrain)
      | _ => None
      end
  | LReturn, PcDrain =>
      match chanPool s with
      | [] => Some (set_pc s PcReturned)
      | _ => None
      end
  | _, _ => None
  end.

(** A run: the labels taken one after the other; [None] when a label
    is not enabled where it is taken. *)
Fixpoint run (s : PoolT) (ls : list (Label SeqObs Obs)) : option PoolT :=
  match ls with
  | [] => Some s
  | l :: ls' =>
      match step s l with
      | Some s' => run s' ls'
      | None => None
      end
  end.

Definition start (prog : list (Instr Item SeqObs)) (a : Acc) : PoolT :=
  mkPool PcLoop prog [] [] a.

Definition is_running (u : Item * UnitState Res) : bool :=
  match u.2 with Running => true | _ => false end.

Definition is_done (u : Item * UnitState Res) : bool :=
  match u.2 with Done _ => true | _ => false end.

(** The goroutines at work at this instant. *)
Definition running (s : PoolT) : nat := length (filter is_running (units s)).

(** The goroutines whose value the dispatcher has not received. *)
Definition in_flight (s : PoolT) : nat :=
  length (filter (fun u => negb (is_done u)) (units s)).

(** The values received so far, by channel. *)
Definition received (s : PoolT) : list Res :=
  omap (fun u => match u.2 with Done r => Some r | _ => None end) (units s).

Definition spawns (prog : list (Instr Item SeqObs)) : list Item :=
  omap (fun i => match i with ISpawn it => Some it | ISeq _ => None end) prog.

(** The value a goroutine holds is one its body can send. *)
Definition justified (u : Item * UnitState Res) : Prop :=
  match u.2 with
  | Running => True
  | Sending r | Done r => ∃ o, unit_run u.1 o = Ok r
  end.

(** The program the dispatcher runs and the bookkeeping it starts from. *)
Variable prog : list (Instr Item SeqObs).
Variable acc0 : Acc.

(** The invariant of the loop: the goroutines whose value has been
    received come first, the channels of the others are the window, in
    order; the window never outgrows [thrN]; every item is either a
    goroutine already or still to be spawned. *)
Inductive Inv (s : PoolT) : Prop :=
| mkInv (dones pend : list (Item * UnitState Res))
    (consumed : list (Instr Item SeqObs))
    (inv_units : units s = dones ++ pend)
    (inv_done : Forall (fun u => is_done u = true) dones)
    (inv_notdone : Forall (fun u => is_done u = false) pend)
    (inv_window : chanPool s = seq (length dones) (length pend))
    (inv_bound : 1 ≤ thrN →
                 Z.of_nat (length (chanPool s)) ≤ thrN
                 ∧ (pc s = PcLoop → Z.of_nat (length (chanPool s)) < thrN))
    (inv_prog : prog = consumed ++ todo s)
    (inv_items : spawns consumed = (units s).*1)
    (inv_passed : pc s ≠ PcAborted → Forall passable consumed)
    (inv_todo : pc s = PcDrain ∨ pc s = PcReturned → todo s = [])
    (inv_empty : pc s = PcReturned → chanPool s = [])
    (inv_acc : acc s = Nat.iter (length (units s)) spawned
                         (foldl collect acc0 (received s))).
End Pool.

(** ** [processRepos] *)

(** The index expression [ary[i]]. *)
Definition index {A : Type} (ary : list A) (i : nat) : Outcome A :=
  match ary !! i with
  | Some a => Ok a
  | None => Panic "index out of range"
  end.

(** Lines 181 and 198-200: the working directory of [orgRepo] under the
    entry [org] of the map. *)
Definition repoDir (wd org orgRepo : string) : Outcome string :=
  let owd := wd +:+ org in
  let ary := Split orgRepo "/" in
  repo ← index ary 1;
  Ok (owd +:+ "/" +:+ repo).

(** What the file system answers while the dispatcher makes sure of one
    directory. *)
Record DirObs : Type := mkDirObs {
  d_before : Stat;
  d_mkdir : option error;
  d_after : Stat
}.

Definition ensureDirObs (wd : string) (o : DirObs) : Outcome unit :=
  ensureDir (d_before o) (d_mkdir o) (d_after o) wd.

(** A work item of the repo pool: [orgRepo] and [rwd], the arguments of
    [go processRepo(ch, ctx, orgRepo, rwd)]. *)
Definition RepoItem : Type := string * string.

Definition repoInstr (wd org orgRepo : string) : Instr RepoItem DirObs :=
  match repoDir wd org orgRepo with
  | Ok rwd => ISpawn (orgRepo, rwd)
  | Fatal e => ISeq (fun _ => Fatal e)
  | Panic msg => ISeq (fun _ => Panic msg)
  end.

(** Lines 179-211 for one entry of [allRepos]. *)
Definition orgInstrs (wd : string) (entry : string * list string)
    : list (Instr RepoItem DirObs) :=
  ISeq (ensureDirObs (wd +:+ entry.1)) :: map (repoInstr wd entry.1) entry.2.

(** The loop over [allRepos], walked through in the order [order]. *)
Definition processRepos_prog (ctx : Ctx) (order : list (string * list string))
    : list (Instr RepoItem DirObs) :=
  concat (map (orgInstrs (ReposDir ctx)) order).

(** [allOkRepos] and [checked]. *)
Definition RepoAcc : Type := list string * Z.

(** Lines 207-209 and 215-217. *)
Definition collectRepo (a : RepoAcc) (res : string) : RepoAcc :=
  if decide (res ≠ "") then (a.1 ++ [res], a.2) else a.

(** Line 202. *)
Definition countRepo (a : RepoAcc) : RepoAcc := (a.1, a.2 + 1).

(** The goroutine [processRepo] as the pool sees it; [processRepos] has
    set [ExecFatal] and [ExecQuiet] (lines 156-157) before. *)
Definition repoUnit (ctx : Ctx) (it : RepoItem) (w : World) : Outcome string :=
  reply (processRepo w (set_exec ctx false true) it.1 it.2).

Definition processRepos_step (thrN : Z) (ctx : Ctx) :=
  step (SeqObs := DirObs) thrN (repoUnit ctx) countRepo collectRepo.

Definition processRepos_run (thrN : Z) (ctx : Ctx) :=
  run (SeqObs := DirObs) thrN (repoUnit ctx) countRepo collectRepo.

(** Lines 160-177: up to the loop. *)
Definition processRepos_start (o : DirObs) (ctx : Ctx) (order : list (string * list string))
    : Outcome (Pool RepoItem string RepoAcc DirObs) :=
  ensureDirObs (ReposDir ctx) o;;
  Ok (start (processRepos_prog ctx order) ([], 0)).

(** Lines 228-232. *)
Definition rubyList (allOkRepos : list string) : string :=
  foldl (fun str okRepo => str +:+ "  '" +:+ okRepo +:+ "'," +:+ LF)
        ("[" +:+ LF) allOkRepos +:+ "]".

(** Lines 244-247. *)
Definition globPath (ctx : Ctx) (org : string) : string :=
  ReposDir ctx +:+ org +:+ "/* ".

Definition finalCmd (ctx : Ctx) (orgs : list string) : string :=
  foldl (fun cmd org => cmd +:+ globPath ctx org) "./all_repos_log.sh " orgs.

Definition summary (allOkRepos : list string) (checked : Z) : string :=
  "Sucesfully processed " +:+ fmt_d (Z.of_nat (length allOkRepos)) +:+ "/"
    +:+ fmt_d checked +:+ " repos" +:+ LF.

(** Lines 223-253: the report. [orgs] are the keys of [allRepos] in the
    order of the loop at line 236. *)
Definition report (ctx : Ctx) (allOkRepos orgs : list string) (checked : Z)
    : list (Event string) :=
  (if ExternalInfo ctx then
     let allOkRepos' := sort_Strings allOkRepos in
     let orgs' := sort_Strings orgs in
     [EvStdout ("AllRepos:" +:+ LF +:+ rubyList allOkRepos' +:+ LF);
      EvStdout ("Final command:" +:+ LF +:+ finalCmd ctx orgs' +:+ LF)]
   else [])
  ++ [EvLog (summary allOkRepos checked)].

(** [processRepos] after the pool has returned in state [s]. *)
Definition processRepos_end (ctx : Ctx) (orgs : list string)
    (s : Pool RepoItem string RepoAcc DirObs) : list (Event string) :=
  report ctx (acc s).1 orgs (acc s).2.

Definition logged {V} (tr : list (Event V)) : list string :=
  omap (fun e => match e with EvLog m => Some m | _ => None end) tr.

Definition executed {V} (tr : list (Event V)) : list (list string) :=
  omap (fun e => match e with EvExec c _ => Some c | _ => None end) tr.

(** The commands a trace has launched, each with the environment it was
    given. *)
Definition launched {V} (tr : list (Event V))
    : list (list string * list (string * string)) :=
  omap (fun e => match e with EvExec c env => Some (c, env) | _ => None end) tr.

(** ** [processCommits] *)

(** A work item of the shard pool: [db] and [sqlQuery]. *)
Definition DBItem : Type := string * string.

Definition dbUnit (ctx : Ctx) (it : DBItem) (w : World) : Outcome bool :=
  reply (processCommitsDB w ctx it.1 it.2).

Definition processCommits_prog (sqlQuery : string) (order : list string)
    : list (Instr DBItem unit) :=
  map (fun db => ISpawn (db, sqlQuery)) order.

Definition processCommits_step (thrN : Z) (ctx : Ctx) :=
  step (SeqObs := unit) (Acc := unit) thrN (dbUnit ctx) id (fun a _ => a).

Definition processCommits_run (thrN : Z) (ctx : Ctx) :=
  run (SeqObs := unit) (Acc := unit) thrN (dbUnit ctx) id (fun a _ => a).

(** Lines 313-325: up to the loop. *)
Definition processCommits_start (DataDir : string) (w : World) (ctx : Ctx)
    (order : list string) : Outcome (Pool DBItem bool unit unit) :=
  bytes ← sum_outcome (w_readFile w (dataPrefix DataDir ctx
                                       +:+ "util_sql/list_unprocessed_commits.sql"));
  Ok (start (processCommits_prog bytes order) tt).

(** ** Definitions used by the statements *)

(** The answer of [dirExists] as a function of what [os.Stat] says of
    the path. *)
Definition classify (path : string) (r : StatResult) : bool * option error :=
  match r with
  | StatError e isNotExist => if isNotExist then (false, None) else (false, Some e)
  | StatInfo isDir =>
      if isDir then (true, None)
      else (false, Some (path +:+ ": exists, but is not a directory"))
  end.

(** The command of the sync unit: reset and pull when the directory is
    there, clone when it is not. *)
Definition syncCmd (exists_ : bool) (orgRepo rwd : string) : list string :=
  if exists_ then pullCmd rwd else cloneCmd orgRepo rwd.

(** [rows.Scan(&sha, &repo)] succeeds on this row. *)
Definition scans (r : Row) : bool :=
  match scan2 r with inl _ => true | inr _ => false end.

(** The byte [sep] occurs in [s]. *)
Fixpoint contains (sep : ascii) (s : string) : bool :=
  match s with
  | EmptyString => false
  | String a s' => Ascii.eqb a sep || contains sep s'
  end.

(** The organization of an identifier: [ary[0]] at line 82. *)
Definition orgOf (repo : string) : string :=
  match Split repo "/" with
  | org :: _ => org
  | [] => ""
  end.

(** The identifier passes the check of line 79. *)
Definition wellFormed (repo : string) : Prop := length (Split repo "/") = 2%nat.

(** The identifiers [db] answers to the query of [getRepos], when the
    query, every scan and [rows.Err()] succeed. *)
Definition shardRepos (w : World) (db : string) : option (list string) :=
  match w_query w db reposQuery with
  | QueryRows rows None =>
      match scanRepos rows [] with
      | Ok repos => Some repos
      | _ => None
      end
  | _ => None
  end.

(** The identifiers of all shards, in the order the shards are read. *)
Definition allShardRepos (w : World) (order : list string) : list string :=
  concat (map (fun db => default [] (shardRepos w db)) order).

(** The number of occurrences of [repo] in [l]. *)
Definition count (repo : string) (l : list string) : nat :=
  length (filter (fun r => r = repo) l).

(** Every identifier of the map stands under its own organization and
    has passed the check of line 79. *)
Definition filed (allRepos : gmap string (list string)) : Prop :=
  ∀ org repos, allRepos !! org = Some repos →
    Forall (fun repo => wellFormed repo ∧ orgOf repo = org) repos.

(** Every path is a directory or is not there: [dirExists] reports no
    error. *)
Definition noConflict (stat : Stat) : Prop :=
  ∀ path, match stat path with
          | StatInfo true | StatError _ true => True
          | _ => False
          end.

(** Splitting on the separator yields exactly two non-empty parts. *)
Definition twoNonEmptyParts (repo : string) : Prop :=
  ∃ a b, Split repo "/" = [a; b] ∧ a ≠ "" ∧ b ≠ "".


(** The end-to-end scenario of the specification: the manifest names
    the enabled shards A and B (and a disabled one); A holds
    [org1/repoX] and [org1/repoY], B holds [org2/repoZ]; nothing is on
    disk; every command works but the clone of [org1/repoY]. *)
Module Scenario.
Definition DataDir : string := "/etc/gha2db/".
Definition manifest : AllProjects :=
  mkAllProjects [mkProject "A" false; mkProject "C" true; mkProject "B" false;
                 mkProject "A" false].
Definition repoRows (db : string) : QueryResult :=
  if decide (db = "A") then QueryRows [RowCols ["org1/repoX"]; RowCols ["org1/repoY"]] None
  else if decide (db = "B") then QueryRows [RowCols ["org2/repoZ"]] None
  else QueryError "pq: database does not exist".
Definition world : World :=
  mkWorld (fun path => if decide (path = "./projects.yaml") then inr "projects: ..."
                       else if decide (path = "./util_sql/list_unprocessed_commits.sql")
                            then inr "select sha, dup_repo_name from gha_commits"
                            else inl "open: no such file or directory")
          (fun data => if decide (data = "projects: ...") then inr manifest
                       else inl "yaml: unmarshal errors")
          (fun db query => if decide (query = reposQuery) then repoRows db
                           else QueryRows [RowCols ["4f0e"; "org1/repoX"]] None)
          (fun _ => StatError "stat: no such file or directory" true)
          (fun cmd => if decide (cmd = cloneCmd "org1/repoY" "/r/org1/repoY")
                      then Some "exit status 128" else None)
          "1s".
Definition ctx : Ctx := mkCtx true 0 true false "/r/" true true true.
Definition dirOk : DirObs :=
  mkDirObs (fun _ => StatInfo true) None (fun _ => StatInfo true).
Definition order : list (string * list string) :=
  [("org1", ["org1/repoX"; "org1/repoY"]); ("org2", ["org2/repoZ"])].
(** The same, but shard B holds [org1/repoX] as well. *)
Definition dupWorld : World :=
  mkWorld (w_readFile world) (w_unmarshal world)
          (fun db query =>
             if decide (db = "B") then QueryRows [RowCols ["org1/repoX"]] None
             else w_query world db query)
          (w_stat world) (w_exec world) (w_took world).
(** The same, but shard A holds an identifier with an empty name. *)
Definition slashWorld : World :=
  mkWorld (w_readFile world) (w_unmarshal world)
          (fun db query =>
             if decide (db = "A") then QueryRows [RowCols ["a/"]] None
             else w_query world db query)
          (w_stat world) (w_exec world) (w_took world).
(** The same, but shard B holds an identifier without a separator. *)
Definition badWorld : World :=
  mkWorld (w_readFile world) (w_unmarshal world)
          (fun db query =>
             if decide (db = "B") then QueryRows [RowCols ["org2/repoZ"]; RowCols ["justaname"]] None
             else w_query world db query)
          (w_stat world) (w_exec world) (w_took world).
(** The same, but the connection is lost while the rows of a query are
    read: [rows.Err()] reports it after the rows that did arrive. *)
Definition lostWorld : World :=
  mkWorld (w_readFile world) (w_unmarshal world)
          (fun _ _ => QueryRows [RowCols ["4f0e"; "org1/repoX"]]
                        (Some "driver: bad connection"))
          (w_stat world) (w_exec world) (w_took world).
(** One interleaving of the repo pool with [thrN = 2]. *)
Definition schedule : list (Label DirObs World) :=
  [LSeq dirOk; LSpawn; LFinish 0%nat world; LSpawn; LRecv; LSeq dirOk;
   LFinish 1%nat world; LSpawn; LRecv; LEndLoop; LFinish 2%nat world; LRecv; LReturn].
(** One interleaving of the shard pool with [thrN = 2]. *)
Definition dbSchedule : list (Label unit World) :=
  [LSpawn; LSpawn; LFinish 1%nat world; LFinish 0%nat world; LRecv; LEndLoop;
   LRecv; LReturn].
(** Where the two interleavings end. *)
Definition final : Pool RepoItem string RepoAcc DirObs :=
  mkPool PcReturned [] []
    [("org1/repoX", "/r/org1/repoX", Done "org1/repoX");
     ("org1/repoY", "/r/org1/repoY", Done "");
     ("org2/repoZ", "/r/org2/repoZ", Done "org2/repoZ")]
    (["org1/repoX"; "org2/repoZ"], 3).
Definition dbFinal : Pool DBItem bool unit unit :=
  mkPool PcReturned [] [] [("A", "select", Done true); ("B", "select", Done true)] tt.
(** The same interleaving in a world where every command works. *)
Definition okWorld : World :=
  mkWorld (w_readFile world) (w_unmarshal world) (w_query world) (w_stat world)
          (fun _ => None) (w_took world).
Definition okSchedule : list (Label DirObs World) :=
  [LSeq dirOk; LSpawn; LFinish 0%nat okWorld; LSpawn; LRecv; LSeq dirOk;
   LFinish 1%nat okWorld; LSpawn; LRecv; LEndLoop; LFinish 2%nat okWorld; LRecv; LReturn].
Definition okFinal : Pool RepoItem string RepoAcc DirObs :=
  mkPool PcReturned [] []
    [("org1/repoX", "/r/org1/repoX", Done "org1/repoX");
     ("org1/repoY", "/r/org1/repoY", Done "org1/repoY");
     ("org2/repoZ", "/r/org2/repoZ", Done "org2/repoZ")]
    (["org1/repoX"; "org1/repoY"; "org2/repoZ"], 3).
(** A shard goroutine on a database that is not there, and the sync
    unit of [org1/repoY], both at work. *)
Definition dbState : Pool DBItem bool unit unit :=
  mkPool PcLoop [] [0%nat] [(("Z", reposQuery), Running)] tt.
Definition lostState : Pool DBItem bool unit unit :=
  mkPool PcLoop [] [0%nat] [(("A", "select"), Running)] tt.
Definition repoState : Pool RepoItem string RepoAcc DirObs :=
  mkPool PcLoop [] [0%nat] [(("org1/repoY", "/r/org1/repoY"), Running)] ([], 1).
End Scenario.

(** ** Definitions used by the further properties *)

(** A limit that is not positive, or that exceeds the number of items. *)
Definition slack {Item SeqObs : Type} (thrN : Z) (prog : list (Instr Item SeqObs)) : Prop :=
  thrN ≤ 0 ∨ Z.of_nat (length (spawns prog)) < thrN.

(** What a trace has written to standard error and to standard
    output. *)
Definition stderrs {V} (tr : list (Event V)) : list string :=
  omap (fun e => match e with EvStderr m => Some m | _ => None end) tr.

Definition stdouts {V} (tr : list (Event V)) : list string :=
  omap (fun e => match e with EvStdout m => Some m | _ => None end) tr.

(** The queries a trace has sent, each with its database. *)
Definition queried {V} (tr : list (Event V)) : list (string * string) :=
  omap (fun e => match e with EvQuery db q => Some (db, q) | _ => None end) tr.

(** Data for the examples of the further properties. *)
Module Cases.
(** The shard pool with [thrN = 2] after three spawns and one receive:
    shards B and C are in the window. *)
Definition dbPrefix : list (Label unit World) :=
  [LSpawn; LFinish 0%nat Scenario.world; LSpawn; LRecv; LSpawn; LFinish 2%nat Scenario.world].
Definition dbMid : Pool DBItem bool unit unit :=
  mkPool PcAwait [] [1%nat; 2%nat]
    [("A", "select", Done true); ("B", "select", Running); ("C", "select", Sending true)] tt.
(** One interleaving of each pool with [thrN = 0]: nothing is received
    inside the loop. *)
Definition freeSchedule : list (Label DirObs World) :=
  [LSeq Scenario.dirOk; LSpawn; LFinish 0%nat Scenario.world; LSpawn;
   LSeq Scenario.dirOk; LSpawn; LEndLoop; LFinish 1%nat Scenario.world;
   LFinish 2%nat Scenario.world; LRecv; LRecv; LRecv; LReturn].
Definition freePrefix : list (Label unit World) :=
  [LSpawn; LSpawn; LFinish 1%nat Scenario.world].
Definition freeMid : Pool DBItem bool unit unit :=
  mkPool PcLoop [] [0%nat; 1%nat]
    [("A", "select", Running); ("B", "select", Sending true)] tt.
(** An interleaving of the repo pool with [thrN = 2] in which the
    goroutines finish in the order 1, 0, 2. *)
Definition lateSchedule : list (Label DirObs World) :=
  [LSeq Scenario.dirOk; LSpawn; LSpawn; LFinish 1%nat Scenario.okWorld;
   LFinish 0%nat Scenario.okWorld; LRecv; LSeq Scenario.dirOk; LSpawn; LRecv;
   LEndLoop; LFinish 2%nat Scenario.okWorld; LRecv; LReturn].
(** The map of the scenario walked through the other way round, with
    [thrN = 2] and every command working. *)
Definition swapOrder : list (string * list string) :=
  [("org2", ["org2/repoZ"]); ("org1", ["org1/repoX"; "org1/repoY"])].
Definition swapSchedule : list (Label DirObs World) :=
  [LSeq Scenario.dirOk; LSpawn; LFinish 0%nat Scenario.okWorld; LSeq Scenario.dirOk;
   LSpawn; LRecv; LSpawn; LFinish 1%nat Scenario.okWorld; LRecv; LEndLoop;
   LFinish 2%nat Scenario.okWorld; LRecv; LReturn].
Definition swapFinal : Pool RepoItem string RepoAcc DirObs :=
  mkPool PcReturned [] []
    [("org2/repoZ", "/r/org2/repoZ", Done "org2/repoZ");
     ("org1/repoX", "/r/org1/repoX", Done "org1/repoX");
     ("org1/repoY", "/r/org1/repoY", Done "org1/repoY")]
    (["org2/repoZ"; "org1/repoX"; "org1/repoY"], 3).
End Cases.

(** * Properties *)

Example dirExists_dir :
  dirExists (fun p => if String.eqb p "/r/org" then StatInfo true else StatError "no" true)
    "/r/org/" = Ok (true, None).
Proof. reflexivity. Qed.

Example fmt_examples : fmt_d 42 = "42" ∧ fmt_d 0 = "0" ∧ fmt_06d 17 = "000017".
Proof. repeat split; reflexivity. Qed.

Example Split_examples :
  Split "org1/repoX" "/" = ["org1"; "repoX"] ∧ Split "justaname" "/" = ["justaname"]
  ∧ Split "a/b/c" "/" = ["a"; "b"; "c"] ∧ Split "a/" "/" = ["a"; ""] ∧ Split "" "/" = [""].
Proof. repeat split; reflexivity. Qed.

(** Run the binds of the [Outcome] monad that are ready to run. *)
Ltac obind := cbn [mbind outcome_bind sum_outcome FatalOnError].

(** ** Slices and [dirExists] *)

Lemma len_String a s : len (String a s) = len s + 1.
Proof. unfold len. cbn [String.length]. lia. Qed.

Lemma len_nonneg s : 0 ≤ len s.
Proof. unfold len. lia. Qed.

Lemma slice_ok s lo hi :
  0 ≤ lo → lo ≤ hi → hi ≤ len s →
  slice s lo hi = Ok (String.substring (Z.to_nat lo) (Z.to_nat (hi - lo)) s).
Proof.
  intros H1 H2 H3. unfold slice.
  rewrite !(proj2 (Z.leb_le _ _)) by lia. reflexivity.
Qed.

Lemma dirExists_spec stat a s :
  dirExists stat (String a s)
  = Ok (classify (statPath (String a s)) (stat (statPath (String a s)))).
Proof.
  unfold dirExists, statPath.
  pose proof (len_nonneg s) as Hs. pose proof (len_String a s) as Hl.
  rewrite (slice_ok (String a s) (len (String a s) - 1) (len (String a s))) by lia.
  obind.
  destruct (String.eqb _ "/").
  - rewrite (slice_ok (String a s) 0 (len (String a s) - 1)) by lia.
    obind. unfold classify.
    destruct (stat _) as [[]|? []]; reflexivity.
  - obind. unfold classify.
    destruct (stat _) as [[]|? []]; reflexivity.
Qed.

Lemma dirExists_empty stat : dirExists stat "" = Panic "slice bounds out of range".
Proof. reflexivity. Qed.

(** ** [processRepo] *)

Lemma sends_app {V} (t1 t2 : list (Event V)) : sends (t1 ++ t2) = sends t1 ++ sends t2.
Proof. induction t1 as [|[] t1 IH]; cbn; rewrite ?IH; done. Qed.

Lemma processRepo_shape w ctx orgRepo a s :
  let rwd := String a s in
  let p := processRepo w ctx orgRepo rwd in
  match classify (statPath rwd) (w_stat w (statPath rwd)) with
  | (_, Some e) => p = mkProc [] (Fatal e)
  | (b, None) =>
      let cmd := syncCmd b orgRepo rwd in
      ∃ pre, sends pre = [] ∧ executed pre = [cmd] ∧
        match w_exec w cmd with
        | None => p = mkProc (pre ++ [EvSend orgRepo]) (Ok tt)
        | Some e =>
            if ExecFatal ctx then p = mkProc pre (Fatal e)
            else p = mkProc (pre ++ [EvSend ""]) (Ok tt)
        end
  end.
Proof.
  intros rwd p. subst p rwd. unfold processRepo. rewrite dirExists_spec.
  destruct (w_stat w _) as [[]|e []]; cbn -[statPath cloneCmd pullCmd]; try done.
  all: unfold when, ExecCommand; destruct (0 <? Debug ctx);
    cbn -[statPath cloneCmd pullCmd];
    destruct (w_exec w _); cbn -[statPath cloneCmd pullCmd];
    try destruct (ExecFatal ctx); cbn -[statPath cloneCmd pullCmd].
  all: lazymatch goal with
       | |- ∃ pre, _ ∧ _ ∧ mkProc ?t (Ok _) = _ => exists (removelast t)
       | |- ∃ pre, _ ∧ _ ∧ mkProc ?t _ = _ => exists t
       end; repeat split; reflexivity.
Qed.

Lemma processRepo_empty w ctx orgRepo :
  processRepo w ctx orgRepo "" = mkProc [] (Panic "slice bounds out of range").
Proof. reflexivity. Qed.

(** ** [processCommitsDB] *)

Lemma printCommits_shape {V} db i shas :
  outcome (printCommits (V := V) db i shas) = Ok tt
  ∧ sends (trace (printCommits (V := V) db i shas)) = [].
Proof.
  revert i. induction shas as [|[repo sha] shas IH]; intros i; [done|].
  cbn. destruct (IH (i + 1)) as [-> ->]. done.
Qed.

Lemma scanShas_ok rows shas :
  forallb scans rows = true → ∃ shas', scanShas rows shas = Ok shas'.
Proof.
  revert shas. induction rows as [|r rows IH]; intros shas H; cbn in *; [eauto|].
  apply andb_true_iff in H as [Hr H]. unfold scans in Hr.
  destruct (scan2 r) as [[sha repo]|]; [|done]. eauto.
Qed.

Lemma scanShas_bad rows shas :
  forallb scans rows = false → ∃ e, scanShas rows shas = Fatal e.
Proof.
  revert shas. induction rows as [|r rows IH]; intros shas H; cbn in *; [done|].
  unfold scans in H at 1.
  destruct (scan2 r) as [[sha repo]|e]; [|eauto]. cbn in H. eauto.
Qed.

Lemma processCommitsDB_shape w ctx db query :
  let p := processCommitsDB w ctx db query in
  match w_query w db query with
  | QueryError e => outcome p = Fatal e ∧ sends (trace p) = []
  | QueryRows rows rowsErr =>
      if forallb scans rows then
        match rowsErr with
        | Some e => outcome p = Fatal e ∧ sends (trace p) = []
        | None => outcome p = Ok tt
                  ∧ ∃ pre, trace p = pre ++ [EvSend true] ∧ sends pre = []
        end
      else ∃ e, outcome p = Fatal e ∧ sends (trace p) = []
  end.
Proof.
  intros p. subst p. unfold processCommitsDB, when.
  destruct (w_query w db query) as [e|rows rowsErr].
  - destruct (0 <? Debug ctx); cbn; done.
  - destruct (forallb scans rows) eqn:Hrows.
    + destruct (scanShas_ok rows [] Hrows) as [shas Hs].
      destruct rowsErr as [e|].
      * destruct (0 <? Debug ctx); cbn; rewrite Hs; cbn; done.
      * destruct (0 <? Debug ctx); cbn; rewrite Hs; cbn.
        all: destruct (printCommits_shape (V := bool) db 0 shas) as [Ho Ht].
        all: rewrite Ho; cbn; split; [done|].
        all: rewrite !app_comm_cons.
        all: eexists; split; [reflexivity|].
        all: cbn; rewrite ?sends_app, ?Ht; done.
    + destruct (scanShas_bad rows [] Hrows) as [e Hs]. exists e.
      destruct (0 <? Debug ctx); cbn; rewrite Hs; cbn; done.
Qed.

(** ** The sync unit: claims about [dirExists] and [processRepo] *)

(** C10. [dirExists] needs a non-empty path. On the empty string the
    slice expression [path[len(path)-1:]] is out of bounds and the call
    panics instead of returning an error. On every non-empty path it
    returns: (true, nil) for a directory, (false, nil) for a path that
    is not there, and (false, err) otherwise. *)
Theorem dirExists_requires_nonempty_path (stat : Stat) (a : ascii) (s : string) :
  dirExists stat "" = Panic "slice bounds out of range"
  ∧ match stat (statPath (String a s)) with
    | StatInfo true => dirExists stat (String a s) = Ok (true, None)
    | StatError _ true => dirExists stat (String a s) = Ok (false, None)
    | StatInfo false => ∃ e, dirExists stat (String a s) = Ok (false, Some e)
    | StatError e false => dirExists stat (String a s) = Ok (false, Some e)
    end.
Proof.
  split; [reflexivity|]. rewrite dirExists_spec.
  destruct (stat _) as [[]|e []]; cbn -[statPath]; eauto.
Qed.

(** What the sync unit launches when [dirExists] reports no error: one
    command, with prompts of git switched off. *)
Lemma processRepo_launched w ctx orgRepo a s b :
  classify (statPath (String a s)) (w_stat w (statPath (String a s))) = (b, None) →
  launched (trace (processRepo w ctx orgRepo (String a s)))
  = [(syncCmd b orgRepo (String a s), gitEnv)].
Proof.
  unfold processRepo. rewrite dirExists_spec.
  destruct (w_stat w _) as [[]|e []]; cbn -[statPath cloneCmd pullCmd]; try done.
  all: intros [= <-].
  all: unfold when, ExecCommand; destruct (0 <? Debug ctx);
    cbn -[statPath cloneCmd pullCmd];
    destruct (w_exec w _); cbn -[statPath cloneCmd pullCmd];
    try destruct (ExecFatal ctx); cbn -[statPath cloneCmd pullCmd]; reflexivity.
Qed.

(** C5. The state of the target path decides what the sync unit does.
    For every non-empty target path [rwd], looked up the way [dirExists]
    does (without a trailing separator): when the path is not there the
    unit launches the clone, [git clone https://github.com/<orgRepo>.git
    <rwd>], and nothing else; when it is a directory the unit launches
    the refresh, the reset-and-pull script [git_reset_pull.sh <rwd>],
    and nothing else (both with [GIT_TERMINAL_PROMPT=0]); when it is
    there but is no directory the run ends through [lib.FatalOnError]
    before any command is run or any value sent. (So does any other
    error of [os.Stat].) *)
Theorem processRepo_transition (w : World) (ctx : Ctx) (orgRepo : string)
    (a : ascii) (s : string) :
  let rwd := String a s in
  let p := processRepo w ctx orgRepo rwd in
  match w_stat w (statPath rwd) with
  | StatError _ true =>
      launched (trace p)
      = [(["git"; "clone"; "https://github.com/" +:+ orgRepo +:+ ".git"; rwd],
          [("GIT_TERMINAL_PROMPT", "0")])]
  | StatInfo true =>
      launched (trace p) = [(["git_reset_pull.sh"; rwd], [("GIT_TERMINAL_PROMPT", "0")])]
  | StatInfo false =>
      p = mkProc [] (Fatal (statPath rwd +:+ ": exists, but is not a directory"))
  | StatError e false => p = mkProc [] (Fatal e)
  end.
Proof.
  intros rwd p.
  pose proof (processRepo_shape w ctx orgRepo a s) as H.
  pose proof (processRepo_launched w ctx orgRepo a s) as HL.
  cbn zeta in H. fold rwd in H, HL. fold p in H, HL.
  destruct (w_stat w (statPath rwd)) as [[]|e []]; cbn -[statPath] in H, HL; try done.
  - exact (HL true eq_refl).
  - exact (HL false eq_refl).
Qed.

Example processRepo_transition_examples :
  launched (trace (processRepo Scenario.world Scenario.ctx "org1/repoX" "/r/org1/repoX"))
  = [(["git"; "clone"; "https://github.com/org1/repoX.git"; "/r/org1/repoX"],
      [("GIT_TERMINAL_PROMPT", "0")])]
  ∧ launched (trace (processRepo
                       (mkWorld (w_readFile Scenario.world) (w_unmarshal Scenario.world)
                          (w_query Scenario.world) (fun _ => StatInfo true)
                          (w_exec Scenario.world) (w_took Scenario.world))
                       Scenario.ctx "org1/repoX" "/r/org1/repoX/"))
    = [(["git_reset_pull.sh"; "/r/org1/repoX/"], [("GIT_TERMINAL_PROMPT", "0")])].
Proof. split; vm_compute; reflexivity. Qed.

(** C6. A sync unit that does not end the process sends exactly one
    value on its channel, as its last action: the identifier when the
    clone or the refresh worked, the empty string when it failed. *)
Theorem processRepo_sends_once (w : World) (ctx : Ctx) (orgRepo rwd : string) :
  outcome (processRepo w ctx orgRepo rwd) = Ok tt →
  ∃ pre cmd,
    let v := if w_exec w cmd is None then orgRepo else "" in
    trace (processRepo w ctx orgRepo rwd) = pre ++ [EvSend v]
    ∧ sends (trace (processRepo w ctx orgRepo rwd)) = [v]
    ∧ executed pre = [cmd].
Proof.
  destruct rwd as [|a s]; [done|].
  pose proof (processRepo_shape w ctx orgRepo a s) as H. cbn zeta in H.
  destruct (classify _ _) as [b [e|]].
  { rewrite H. done. }
  destruct H as (pre & Hs & He & H). intros Ho.
  exists pre, (syncCmd b orgRepo (String a s)).
  destruct (w_exec w _); [destruct (ExecFatal ctx)|]; rewrite H in Ho |- *;
    try done; cbn; rewrite sends_app, Hs; done.
Qed.

Lemma processRepo_sends_once_witness :
  let p := processRepo Scenario.world (set_exec Scenario.ctx false true)
             "org1/repoY" "/r/org1/repoY" in
  outcome p = Ok tt
  ∧ ∃ pre cmd,
      let v := if w_exec Scenario.world cmd is None then "org1/repoY" else "" in
      trace p = pre ++ [EvSend v] ∧ sends (trace p) = [v] ∧ executed pre = [cmd].
Proof.
  split; [reflexivity|].
  apply (processRepo_sends_once Scenario.world (set_exec Scenario.ctx false true)
           "org1/repoY" "/r/org1/repoY").
  reflexivity.
Defined.

(** ** The window of the dispatch loop *)

Section PoolFacts.
Context {Item Res Acc SeqObs Obs : Type}.
Variable thrN : Z.
Variable unit_run : Item → Obs → Outcome Res.
Variable spawned : Acc → Acc.
Variable collect : Acc → Res → Acc.
Variable prog : list (Instr Item SeqObs).
Variable acc0 : Acc.
Hypothesis collect_spawned : ∀ a r, collect (spawned a) r = spawned (collect a r).

Local Abbreviation PoolT := (Pool Item Res Acc SeqObs).
Local Abbreviation stepP := (step (SeqObs := SeqObs) thrN unit_run spawned collect).
Local Abbreviation runP := (run (SeqObs := SeqObs) thrN unit_run spawned collect).
Local Abbreviation result := (fun u : Item * UnitState Res =>
                                match u.2 with Done r => Some r | _ => None end).

Local Abbreviation Inv := (Inv thrN spawned collect prog acc0).

Lemma result_notdone (us : list (Item * UnitState Res)) :
  Forall (fun u => is_done u = false) us → omap result us = [].
Proof. induction 1 as [|[it [| |]] us H _ IH]; cbn in *; done. Qed.

Lemma collect_iter n a r :
  collect (Nat.iter n spawned a) r = Nat.iter n spawned (collect a r).
Proof.
  induction n as [|n IH]; [done|].
  by rewrite !Nat.iter_succ, collect_spawned, IH.
Qed.

Lemma Inv_start : Inv (start prog acc0).
Proof.
  apply (mkInv _ _ _ _ _ _ [] [] []); cbn; try done.
  - intros. split; [lia|]. intros _. lia.
  - intros [|]; done.
Qed.

Lemma Inv_set_pc_aborted s : Inv s → Inv (set_pc s PcAborted).
Proof.
  intros [dn pd cs H1 H2 H3 H4 H5 Hg Hi Hq H7 H8 H9].
  apply (mkInv _ _ _ _ _ _ dn pd cs); cbn; try done.
  - intros Hn. split; [by apply H5|done].
  - intros [|]; done.
Qed.

Lemma pending_lookup (dn pd : list (Item * UnitState Res)) c u :
  Forall (fun u => is_done u = true) dn →
  (dn ++ pd) !! c = Some u → is_done u = false →
  (length dn ≤ c)%nat ∧ pd !! (c - length dn)%nat = Some u.
Proof.
  intros Hdn Hl Hu.
  destruct (decide (c < length dn)%nat) as [Hlt|Hge].
  - rewrite lookup_app_l in Hl by done.
    rewrite Forall_lookup in Hdn. specialize (Hdn _ _ Hl). cbn in Hdn. congruence.
  - rewrite lookup_app_r in Hl by lia. split; [lia|done].
Qed.

Lemma pending_update (us dn pd : list (Item * UnitState Res)) c it st st' :
  us = dn ++ pd →
  Forall (fun u => is_done u = true) dn →
  us !! c = Some (it, st) → is_done (it, st) = false →
  (length dn ≤ c)%nat
  ∧ pd !! (c - length dn)%nat = Some (it, st)
  ∧ <[c := (it, st')]> us = dn ++ <[(c - length dn)%nat := (it, st')]> pd
  ∧ (<[c := (it, st')]> us).*1 = us.*1.
Proof.
  intros Hu Hdn Hl Hst. rewrite Hu in Hl |- *.
  destruct (pending_lookup dn pd c _ Hdn Hl Hst) as [Hc Hp].
  split; [done|]. split; [done|]. split.
  - by rewrite insert_app_r_alt.
  - rewrite list_fmap_insert. cbn. apply list_insert_id.
    rewrite list_lookup_fmap, Hl. done.
Qed.

Lemma Inv_finish (s : PoolT) c it r :
  Inv s → units s !! c = Some (it, Running) →
  Inv (mkPool (pc s) (todo s) (chanPool s) (<[c := (it, Sending r)]> (units s)) (acc s)).
Proof.
  intros [dn pd cs H1 H2 H3 H4 H5 Hg Hi Hq H7 H8 H9] Hc.
  destruct (pending_update _ dn pd c it Running (Sending r) H1 H2 Hc eq_refl)
    as (Hle & Hp & Hins & Hfst).
  apply (mkInv _ _ _ _ _ _ dn (<[(c - length dn)%nat := (it, Sending r)]> pd) cs);
    cbn [pc todo chanPool units acc]; try done.
  - by apply Forall_insert.
  - by rewrite length_insert.
  - by rewrite Hfst.
  - rewrite length_insert, H9. unfold received. cbn [units].
    rewrite Hins, H1, !omap_app.
    rewrite (result_notdone pd) by done.
    rewrite (result_notdone (<[_ := _]> pd)) by (by apply Forall_insert).
    done.
Qed.

Lemma Inv_recv (s : PoolT) ch rest it r :
  Inv s → pc s = PcAwait ∨ pc s = PcDrain →
  chanPool s = ch :: rest → units s !! ch = Some (it, Sending r) →
  Inv (mkPool (match pc s with PcAwait => PcLoop | p => p end) (todo s) rest
         (<[ch := (it, Done r)]> (units s)) (collect (acc s) r)).
Proof.
  intros [dn pd cs H1 H2 H3 H4 H5 Hg Hi Hq H7 H8 H9] Hpc Hcp Hch.
  destruct (pending_update _ dn pd ch it (Sending r) (Done r) H1 H2 Hch eq_refl)
    as (Hle & Hp & Hins & Hfst).
  rewrite Hcp in H4. destruct pd as [|u pd]; [done|].
  cbn [length seq] in H4. injection H4 as -> Hrest.
  rewrite Nat.sub_diag in Hp, Hins. cbn in Hp, Hins. injection Hp as ->.
  inversion_clear H3 as [|?? _ Hpd].
  apply (mkInv _ _ _ _ _ _ (dn ++ [(it, Done r)]) pd cs); cbn [pc todo chanPool units acc].
  - by rewrite Hins, <- (assoc_L (++)).
  - apply Forall_app. split; [done|]. by constructor.
  - done.
  - rewrite length_app, Nat.add_1_r. done.
  - intros Hn. destruct (H5 Hn) as [Hb _]. rewrite Hcp in Hb. cbn [length] in Hb.
    split; [lia|]. intros _. lia.
  - done.
  - by rewrite Hfst.
  - intros _. apply Hq. destruct Hpc as [Hpc|Hpc]; rewrite Hpc; done.
  - destruct Hpc as [Hpc|Hpc]; rewrite Hpc; intros [|]; try done. apply H7. by left.
  - destruct Hpc as [Hpc|Hpc]; rewrite Hpc; done.
  - rewrite length_insert, H9, collect_iter. f_equal.
    unfold received. cbn [units]. rewrite Hins, H1, !omap_app.
    cbn [omap list_omap]. cbn. rewrite !(result_notdone pd) by done.
    rewrite !(right_id_L [] (++)), foldl_app. done.
Qed.

Lemma Inv_step s l s' : Inv s → stepP s l = Some s' → Inv s'.
Proof.
  intros HI Hstep. pose proof HI as [dn pd cs H1 H2 H3 H4 H5 Hg Hi Hq H7 H8 H9].
  destruct s as [p td cp us a]. cbn [pc todo chanPool units acc] in *.
  unfold received in H9. cbn [units] in H9.
  destruct l as [o| |c o| | |]; destruct p; cbn in Hstep; try done.
  - (* the dispatcher's sequential code *)
    destruct td as [|[body|it] rest]; try done.
    destruct (body o) as [[]| |] eqn:Hb; injection Hstep as <-.
    + apply (mkInv _ _ _ _ _ _ dn pd (cs ++ [ISeq body])); cbn [pc todo chanPool units acc];
        try done.
      * by rewrite Hg, <- (assoc_L (++)).
      * unfold spawns in *. rewrite omap_app, Hi. cbn. by rewrite (right_id_L [] (++)).
      * intros _. apply Forall_app. split; [by apply Hq|].
        constructor; [|done]. by exists o.
      * intros [|]; done.
    + by apply (Inv_set_pc_aborted (mkPool PcLoop _ _ _ _)).
    + by apply (Inv_set_pc_aborted (mkPool PcLoop _ _ _ _)).
  - (* spawn *)
    destruct td as [|[body|it] rest]; try done.
    injection Hstep as <-.
    apply (mkInv _ _ _ _ _ _ dn (pd ++ [(it, Running)]) (cs ++ [ISpawn it]));
      cbn [pc todo chanPool units acc].
    + by rewrite H1, (assoc_L (++)).
    + done.
    + apply Forall_app. split; [done|]. by constructor.
    + rewrite H4, H1, !length_app. cbn [length]. rewrite Nat.add_1_r, seq_S. done.
    + intros Hn. destruct (H5 Hn) as [_ Hlt]. specialize (Hlt eq_refl).
      rewrite length_app in *. cbn [length] in *.
      case_decide; split; try done; lia.
    + by rewrite Hg, <- (assoc_L (++)).
    + unfold spawns in *. by rewrite omap_app, Hi, fmap_app.
    + intros _. apply Forall_app. split; [by apply Hq|]. by constructor.
    + case_decide; intros [|]; done.
    + case_decide; done.
    + unfold received. cbn [units]. rewrite length_app, Nat.add_1_r, Nat.iter_succ.
      rewrite omap_app. cbn [omap list_omap]. cbn. rewrite (right_id_L [] (++)). by rewrite <- H9.
  - (* a goroutine reaches its send *)
    destruct (us !! c) as [[it [| |]]|] eqn:Hc; try done.
    destruct (unit_run it o); injection Hstep as <-.
    + by apply (Inv_finish (mkPool PcLoop _ _ _ _)).
    + by apply (Inv_set_pc_aborted (mkPool PcLoop _ _ _ _)).
    + by apply (Inv_set_pc_aborted (mkPool PcLoop _ _ _ _)).
  - destruct (us !! c) as [[it [| |]]|] eqn:Hc; try done.
    destruct (unit_run it o); injection Hstep as <-.
    + by apply (Inv_finish (mkPool PcAwait _ _ _ _)).
    + by apply (Inv_set_pc_aborted (mkPool PcAwait _ _ _ _)).
    + by apply (Inv_set_pc_aborted (mkPool PcAwait _ _ _ _)).
  - destruct (us !! c) as [[it [| |]]|] eqn:Hc; try done.
    destruct (unit_run it o); injection Hstep as <-.
    + by apply (Inv_finish (mkPool PcDrain _ _ _ _)).
    + by apply (Inv_set_pc_aborted (mkPool PcDrain _ _ _ _)).
    + by apply (Inv_set_pc_aborted (mkPool PcDrain _ _ _ _)).
  - (* receive *)
    destruct cp as [|ch rest]; try done.
    destruct (us !! ch) as [[it [| |]]|] eqn:Hc; try done.
    injection Hstep as <-.
    exact (Inv_recv (mkPool PcAwait td (ch :: rest) us a) ch rest it r HI
             (or_introl eq_refl) eq_refl Hc).
  - destruct cp as [|ch rest]; try done.
    destruct (us !! ch) as [[it [| |]]|] eqn:Hc; try done.
    injection Hstep as <-.
    exact (Inv_recv (mkPool PcDrain td (ch :: rest) us a) ch rest it r HI
             (or_intror eq_refl) eq_refl Hc).
  - (* the loop ends *)
    destruct td; try done. injection Hstep as <-.
    apply (mkInv _ _ _ _ _ _ dn pd cs); cbn [pc todo chanPool units acc set_pc]; try done.
    + intros Hn. split; [by apply H5|done].
    + intros _. by apply Hq.
  - (* the pool returns *)
    destruct cp; try done. injection Hstep as <-.
    apply (mkInv _ _ _ _ _ _ dn pd cs); cbn [pc todo chanPool units acc set_pc]; try done.
    + intros Hn. split; [by apply H5|done].
    + intros _. by apply Hq.
    + intros _. by apply H7; left.
Qed.

Lemma Inv_run ls : ∀ s s', Inv s → runP s ls = Some s' → Inv s'.
Proof.
  induction ls as [|l ls IH]; intros s s' HI Hrun; cbn in Hrun.
  - by injection Hrun as <-.
  - destruct (stepP s l) as [s1|] eqn:Hs; [|done].
    eauto using Inv_step.
Qed.

(** What the invariant gives. *)

Lemma Inv_running s :
  Inv s → (running s ≤ in_flight s)%nat ∧ in_flight s = length (chanPool s).
Proof.
  intros [dn pd cs H1 H2 H3 H4 H5 Hg Hi Hq H7 H8 H9]. unfold running, in_flight.
  rewrite H1, H4, length_seq, !filter_app, !length_app.
  assert (filter is_running dn = []) as ->.
  { clear -H2. induction H2 as [|[it [| |]] dn H _ IH]; done. }
  assert (filter (fun u => negb (is_done u)) dn = []) as ->.
  { clear -H2. induction H2 as [|u dn H _ IH]; [done|].
    rewrite filter_cons_False; [done|]. rewrite H. cbn. auto. }
  assert (filter (fun u => negb (is_done u)) pd = pd) as ->.
  { clear -H3. induction H3 as [|u pd H _ IH]; [done|].
    rewrite filter_cons_True; [by rewrite IH|]. rewrite H. cbn. auto. }
  cbn. split; [apply length_filter|done].
Qed.

Lemma Inv_bounded s :
  Inv s → 1 ≤ thrN → Z.of_nat (running s) ≤ Z.of_nat (in_flight s) ≤ thrN.
Proof.
  intros HI Hn. destruct (Inv_running s HI) as [Hle Heq].
  split; [lia|]. rewrite Heq.
  destruct HI as [dn pd cs H1 H2 H3 H4 H5 Hg Hi Hq H7 H8 H9].
  by apply H5.
Qed.

Lemma Inv_returned s :
  Inv s → pc s = PcReturned →
  Forall passable prog
  ∧ (units s).*1 = spawns prog
  ∧ Forall (fun u => is_done u = true) (units s)
  ∧ length (received s) = length (spawns prog)
  ∧ acc s = Nat.iter (length (spawns prog)) spawned (foldl collect acc0 (received s)).
Proof.
  intros [dn pd cs H1 H2 H3 H4 H5 Hg Hi Hq H7 H8 H9] Hpc.
  rewrite H7 in Hg by auto. rewrite (right_id_L [] (++)) in Hg. subst cs.
  rewrite H8 in H4 by done. destruct pd; [|done].
  rewrite (right_id_L [] (++)) in H1.
  split; [apply Hq; by rewrite Hpc|].
  split; [done|]. split; [by rewrite H1|]. split.
  - unfold received. rewrite Hi, H1, length_fmap. clear -H2.
    induction H2 as [|[it [| |]] dn H _ IH]; try done. cbn. by rewrite IH.
  - rewrite H9, Hi, length_fmap. done.
Qed.
End PoolFacts.

Section PoolResults.
Context {Item Res Acc SeqObs Obs : Type}.
Variable thrN : Z.
Variable unit_run : Item → Obs → Outcome Res.
Variable spawned : Acc → Acc.
Variable collect : Acc → Res → Acc.

Local Abbreviation stepP := (step (SeqObs := SeqObs) thrN unit_run spawned collect).
Local Abbreviation runP := (run (SeqObs := SeqObs) thrN unit_run spawned collect).

Local Abbreviation justifiedP := (justified (Obs := Obs) unit_run).

Lemma justified_step s l s' :
  Forall justifiedP (units s) → stepP s l = Some s' → Forall justifiedP (units s').
Proof.
  intros HJ Hstep. destruct s as [p td cp us a]. cbn [units] in *.
  destruct l as [o| |c o| | |]; destruct p; cbn in Hstep; try done.
  all: repeat match type of Hstep with
         | context [match ?x with _ => _ end] => destruct x eqn:?; try done
         end.
  all: injection Hstep as <-; cbn [units set_pc]; try done.
  all: first
    [ apply Forall_app; split; [done|]; by constructor
    | apply Forall_insert; [done|];
      first
        [ by (unfold justified; cbn; eauto)
        | match goal with
          | H : ?l !! _ = Some _ |- _ =>
              rewrite Forall_lookup in HJ; apply (HJ _ _ H)
          end ] ].
Qed.

Lemma justified_run ls : ∀ s s',
  Forall justifiedP (units s) → runP s ls = Some s' → Forall justifiedP (units s').
Proof.
  induction ls as [|l ls IH]; intros s s' HJ Hrun; cbn in Hrun.
  - by injection Hrun as <-.
  - destruct (stepP s l) as [s1|] eqn:Hs; [|done]. eauto using justified_step.
Qed.

Lemma justified_received (us : list (Item * UnitState Res)) :
  Forall justifiedP us → Forall (fun u => is_done u = true) us →
  Forall2 (fun it r => ∃ o, unit_run it o = Ok r) (us.*1)
    (omap (fun u => match u.2 with Done r => Some r | _ => None end) us).
Proof.
  induction 1 as [|[it st] us HJ _ IH]; intros Hd; [constructor|].
  inversion_clear Hd as [|?? Hd1 Hd2]. destruct st as [| |r]; try done.
  cbn. constructor; [exact HJ|by apply IH].
Qed.
End PoolResults.

(** ** The pool does return *)

Section PoolProgress.
Context {Item Res Acc SeqObs Obs : Type}.
Variable thrN : Z.
Variable unit_run : Item → Obs → Outcome Res.
Variable spawned : Acc → Acc.
Variable collect : Acc → Res → Acc.
Variable prog : list (Instr Item SeqObs).
Variable acc0 : Acc.
Hypothesis collect_spawned : ∀ a r, collect (spawned a) r = spawned (collect a r).
(** What the outside answers when nothing goes wrong. *)
Variable obsS : SeqObs.
Variable obsU : Obs.

Local Abbreviation PoolT := (Pool Item Res Acc SeqObs).
Local Abbreviation stepP := (step (SeqObs := SeqObs) thrN unit_run spawned collect).
Local Abbreviation runP := (run (SeqObs := SeqObs) thrN unit_run spawned collect).
Local Abbreviation Inv := (Inv thrN spawned collect prog acc0).
Local Abbreviation quiet := (fun s : PoolT =>
                               Forall (fun u => is_running u = false) (units s)).

Lemma run_app (l1 l2 : list (Label SeqObs Obs)) : ∀ s s1,
  runP s l1 = Some s1 → runP s (l1 ++ l2) = runP s1 l2.
Proof.
  induction l1 as [|l l1 IH]; intros s s1; cbn.
  - by intros [= ->].
  - destruct (stepP s l) as [s'|]; [apply IH|done].
Qed.

Lemma recv_quiet (s : PoolT) :
  Inv s → quiet s → pc s = PcAwait ∨ pc s = PcDrain → chanPool s ≠ [] →
  ∃ s', stepP s LRecv = Some s' ∧ quiet s' ∧ todo s' = todo s
        ∧ pc s' = match pc s with PcAwait => PcLoop | p => p end
        ∧ S (length (chanPool s')) = length (chanPool s).
Proof.
  intros [dn pd cs H1 H2 H3 H4 H5 Hg Hi Hq H7 H8 H9] Hquiet Hpc Hne.
  destruct pd as [|[it st] pd]; [by rewrite H4 in Hne|].
  assert (units s !! length dn = Some (it, st)) as Hl.
  { rewrite H1, lookup_app_r, Nat.sub_diag by lia. done. }
  assert (∃ r, st = Sending r) as [r ->].
  { inversion_clear H3 as [|?? Hd _]. rewrite Forall_lookup in Hquiet.
    specialize (Hquiet _ _ Hl). destruct st; [done|eauto|done]. }
  unfold step. rewrite H4. cbn [length seq].
  destruct Hpc as [Hpc|Hpc]; rewrite Hpc, Hl; eexists.
  all: split; [reflexivity|]; cbn [units todo pc chanPool].
  all: split; [by apply Forall_insert|].
  all: by rewrite !length_seq.
Qed.

Lemma spawn_quiet (s : PoolT) it rest r :
  pc s = PcLoop → todo s = ISpawn it :: rest → quiet s → unit_run it obsU = Ok r →
  ∃ s', runP s [LSpawn; LFinish (length (units s)) obsU] = Some s' ∧ quiet s'
        ∧ todo s' = rest ∧ chanPool s' ≠ [] ∧ (pc s' = PcLoop ∨ pc s' = PcAwait).
Proof.
  intros Hpc Htd Hquiet Hr.
  set (p1 := if decide (Z.of_nat (length (chanPool s ++ [length (units s)])) = thrN)
             then PcAwait else PcLoop).
  set (s1 := mkPool p1 rest (chanPool s ++ [length (units s)])
               (units s ++ [(it, Running)]) (spawned (acc s)) : PoolT).
  set (s2 := mkPool p1 rest (chanPool s ++ [length (units s)])
               (units s ++ [(it, Sending r)]) (spawned (acc s)) : PoolT).
  assert (stepP s LSpawn = Some s1) as Hs1.
  { unfold step. by rewrite Hpc, Htd. }
  assert (stepP s1 (LFinish (length (units s)) obsU) = Some s2) as Hs2.
  { unfold step. cbn [pc units todo chanPool acc s1].
    rewrite lookup_app_r, Nat.sub_diag by lia. cbn [lookup list_lookup].
    rewrite Hr, insert_app_r_alt, Nat.sub_diag by lia.
    subst p1. by destruct (decide _). }
  exists s2. cbn [run]. rewrite Hs1, Hs2.
  split; [done|]. split; [apply Forall_app; split; [done|by constructor]|].
  split; [done|]. split; [cbn; by destruct (chanPool s)|].
  subst p1. cbn. destruct (decide _); auto.
Qed.

Lemma loop_runs (td : list (Instr Item SeqObs)) : ∀ s : PoolT,
  todo s = td → pc s = PcLoop → Inv s → quiet s →
  Forall (benign unit_run obsS obsU) td →
  ∃ ls s', runP s ls = Some s' ∧ pc s' = PcDrain ∧ quiet s'.
Proof.
  induction td as [|[body|it] rest IH]; intros s Htd Hpc HI Hquiet Hb.
  - exists [LEndLoop]. eexists. cbn. unfold step. rewrite Hpc, Htd. done.
  - inversion_clear Hb as [|?? Hbody Hrest]. cbn in Hbody.
    assert (stepP s (LSeq obsS)
            = Some (mkPool PcLoop rest (chanPool s) (units s) (acc s))) as Hstep.
    { unfold step. by rewrite Hpc, Htd, Hbody. }
    pose proof (Inv_step thrN unit_run spawned collect prog acc0 collect_spawned
                  _ _ _ HI Hstep) as HI'.
    destruct (IH (mkPool PcLoop rest (chanPool s) (units s) (acc s))
                eq_refl eq_refl HI' Hquiet Hrest) as (ls & s' & Hrun & Hs').
    exists (LSeq obsS :: ls), s'. cbn [run]. by rewrite Hstep.
  - inversion_clear Hb as [|?? Hit Hrest]. cbn in Hit. destruct Hit as [r Hr].
    destruct (spawn_quiet s it rest r Hpc Htd Hquiet Hr)
      as (s1 & Hrun1 & Hq1 & Htd1 & Hne1 & Hpc1).
    pose proof (Inv_run thrN unit_run spawned collect prog acc0 collect_spawned
                  _ _ _ HI Hrun1) as HI1.
    destruct Hpc1 as [Hpc1|Hpc1].
    + destruct (IH s1 Htd1 Hpc1 HI1 Hq1 Hrest) as (ls & s' & Hrun & Hs').
      exists ([LSpawn; LFinish (length (units s)) obsU] ++ ls), s'.
      by rewrite (run_app _ _ _ _ Hrun1).
    + destruct (recv_quiet s1 HI1 Hq1 (or_introl Hpc1) Hne1)
        as (s2 & Hstep2 & Hq2 & Htd2 & Hpc2 & _).
      rewrite Hpc1 in Hpc2. rewrite Htd1 in Htd2.
      pose proof (Inv_step thrN unit_run spawned collect prog acc0 collect_spawned
                    _ _ _ HI1 Hstep2) as HI2.
      destruct (IH s2 Htd2 Hpc2 HI2 Hq2 Hrest) as (ls & s' & Hrun & Hs').
      exists ([LSpawn; LFinish (length (units s)) obsU] ++ LRecv :: ls), s'.
      rewrite (run_app _ _ _ _ Hrun1). cbn [run]. by rewrite Hstep2.
Qed.

Lemma drain_runs (n : nat) : ∀ s : PoolT,
  length (chanPool s) = n → pc s = PcDrain → Inv s → quiet s →
  ∃ ls s', runP s ls = Some s' ∧ pc s' = PcReturned.
Proof.
  induction n as [|n IH]; intros s Hn Hpc HI Hquiet.
  - exists [LReturn]. eexists. cbn. unfold step. rewrite Hpc.
    destruct (chanPool s); done.
  - destruct (recv_quiet s HI Hquiet (or_intror Hpc)) as (s1 & Hstep & Hq1 & _ & Hpc1 & Hl).
    { by destruct (chanPool s). }
    rewrite Hpc in Hpc1.
    pose proof (Inv_step thrN unit_run spawned collect prog acc0 collect_spawned
                  _ _ _ HI Hstep) as HI1.
    destruct (IH s1 ltac:(lia) Hpc1 HI1 Hq1) as (ls & s' & Hrun & Hs').
    exists (LRecv :: ls), s'. cbn [run]. by rewrite Hstep.
Qed.

(** When no instruction of the dispatcher and no goroutine ends the
    process, the pool has a run that returns, for every limit. *)
Lemma pool_returns :
  Forall (benign unit_run obsS obsU) prog →
  ∃ ls s, runP (start prog acc0) ls = Some s ∧ pc s = PcReturned.
Proof.
  intros Hb.
  pose proof (Inv_start thrN spawned collect prog acc0) as HI0.
  destruct (loop_runs prog (start prog acc0) eq_refl eq_refl HI0
              (Forall_nil_2 _) Hb) as (ls1 & s1 & Hrun1 & Hpc1 & Hq1).
  pose proof (Inv_run thrN unit_run spawned collect prog acc0 collect_spawned
                _ _ _ HI0 Hrun1) as HI1.
  destruct (drain_runs _ s1 eq_refl Hpc1 HI1 Hq1) as (ls2 & s2 & Hrun2 & Hpc2).
  exists (ls1 ++ ls2), s2. by rewrite (run_app _ _ _ _ Hrun1).
Qed.
End PoolProgress.

(** ** The two pools *)

Lemma collectRepo_countRepo a r : collectRepo (countRepo a) r = countRepo (collectRepo a r).
Proof. unfold collectRepo, countRepo. by case_decide. Qed.

Lemma repoInstr_passable wd org orgRepo :
  passable (repoInstr wd org orgRepo) →
  ∃ rwd, repoDir wd org orgRepo = Ok rwd ∧ repoInstr wd org orgRepo = ISpawn (orgRepo, rwd).
Proof.
  unfold repoInstr. destruct (repoDir wd org orgRepo) as [rwd|e|msg]; cbn.
  - eauto.
  - intros [_ ?]. done.
  - intros [_ ?]. done.
Qed.

Lemma repoInstrs_spawns wd org repos :
  Forall passable (map (repoInstr wd org) repos) →
  (spawns (map (repoInstr wd org) repos)).*1 = repos.
Proof.
  induction repos as [|orgRepo repos IH]; [done|].
  cbn [map]. intros H. inversion_clear H as [|?? H1 H2].
  destruct (repoInstr_passable _ _ _ H1) as (rwd & _ & ->).
  cbn. f_equal. by apply IH.
Qed.

Lemma spawns_app {Item SeqObs} (p1 p2 : list (Instr Item SeqObs)) :
  spawns (p1 ++ p2) = spawns p1 ++ spawns p2.
Proof. apply omap_app. Qed.

Lemma processRepos_prog_spawns ctx order :
  Forall passable (processRepos_prog ctx order) →
  (spawns (processRepos_prog ctx order)).*1 = concat (order.*2).
Proof.
  unfold processRepos_prog. induction order as [|[org repos] order IH]; [done|].
  cbn [map concat fmap list_fmap].
  change (orgInstrs (ReposDir ctx) (org, repos))
    with (ISeq (ensureDirObs (ReposDir ctx +:+ org))
            :: map (repoInstr (ReposDir ctx) org) repos).
  intros H. apply Forall_app in H as [H1 H2]. inversion_clear H1 as [|?? _ H1'].
  rewrite spawns_app, fmap_app.
  change (spawns (ISeq ?b :: ?l)) with (spawns l).
  rewrite (repoInstrs_spawns _ _ _ H1'). f_equal. by apply IH.
Qed.

Lemma processCommits_prog_spawns sqlQuery dbs :
  (spawns (SeqObs := unit) (processCommits_prog sqlQuery dbs)).*1 = dbs.
Proof. induction dbs as [|db dbs IH]; [done|]. cbn. by f_equal. Qed.

(** The dispatch loops start where the model of the pool starts. *)
Lemma processRepos_start_Ok o ctx order s0 :
  processRepos_start o ctx order = Ok s0 →
  ensureDirObs (ReposDir ctx) o = Ok tt
  ∧ s0 = start (processRepos_prog ctx order) ([], 0).
Proof.
  unfold processRepos_start.
  destruct (ensureDirObs (ReposDir ctx) o) as [[]| |]; cbn; [|done..].
  by intros [= <-].
Qed.

Lemma processCommits_start_Ok DataDir w ctx order s0 :
  processCommits_start DataDir w ctx order = Ok s0 →
  ∃ sqlQuery,
    w_readFile w (dataPrefix DataDir ctx +:+ "util_sql/list_unprocessed_commits.sql")
    = inr sqlQuery
    ∧ s0 = start (processCommits_prog sqlQuery order) tt.
Proof.
  unfold processCommits_start.
  destruct (w_readFile w _) as [e|sqlQuery]; cbn; [done|].
  intros [= <-]. eauto.
Qed.

(** C1. With a limit [thrN >= 1], in every state either pool can reach,
    under every interleaving and whatever the goroutines meet, at most
    [thrN] goroutines are at work (indeed at most [thrN] have not yet
    handed over their value); and when the pool has returned, every
    work item has been dispatched and the value of every goroutine has
    been received: none is dropped. *)
Theorem pools_bounded_and_complete (thrN : Z) (ctx : Ctx)
    (order : list (string * list string)) (sqlQuery : string) (dbs : list string)
    (ls1 : list (Label DirObs World)) (ls2 : list (Label unit World))
    (s1 : Pool RepoItem string RepoAcc DirObs) (s2 : Pool DBItem bool unit unit) :
  1 ≤ thrN →
  processRepos_run thrN ctx (start (processRepos_prog ctx order) ([], 0)) ls1 = Some s1 →
  processCommits_run thrN ctx (start (processCommits_prog sqlQuery dbs) tt) ls2 = Some s2 →
  (Z.of_nat (running s1) ≤ Z.of_nat (in_flight s1) ≤ thrN
   ∧ (pc s1 = PcReturned →
      (units s1).*1.*1 = concat (order.*2)
      ∧ Forall (fun u => is_done u = true) (units s1)
      ∧ length (received s1) = length (concat (order.*2))))
  ∧ (Z.of_nat (running s2) ≤ Z.of_nat (in_flight s2) ≤ thrN
     ∧ (pc s2 = PcReturned →
        (units s2).*1.*1 = dbs
        ∧ Forall (fun u => is_done u = true) (units s2)
        ∧ length (received s2) = length dbs)).
Proof.
  intros Hn Hr1 Hr2.
  pose proof (Inv_run thrN (repoUnit ctx) countRepo collectRepo _ ([], 0)
                collectRepo_countRepo ls1 _ _ (Inv_start _ _ _ _ _) Hr1) as HI1.
  pose proof (Inv_run thrN (dbUnit ctx) id (fun a _ => a) _ tt
                (fun _ _ => eq_refl) ls2 _ _ (Inv_start _ _ _ _ _) Hr2) as HI2.
  split.
  - split; [by apply (Inv_bounded _ _ _ _ _ _ HI1)|].
    intros Hpc. destruct (Inv_returned _ _ _ _ _ _ HI1 Hpc) as (Hpass & Hu & Hd & Hlen & _).
    pose proof (processRepos_prog_spawns _ _ Hpass) as Hs.
    split; [by rewrite Hu|]. split; [done|].
    by rewrite Hlen, <- Hs, length_fmap.
  - split; [by apply (Inv_bounded _ _ _ _ _ _ HI2)|].
    intros Hpc. destruct (Inv_returned _ _ _ _ _ _ HI2 Hpc) as (Hpass & Hu & Hd & Hlen & _).
    pose proof (processCommits_prog_spawns sqlQuery dbs) as Hs.
    split; [by rewrite Hu|]. split; [done|].
    rewrite Hlen. rewrite <- Hs at 2. by rewrite length_fmap.
Qed.

Example scenario_repo_run :
  processRepos_run 2 Scenario.ctx
    (start (processRepos_prog Scenario.ctx Scenario.order) ([], 0)) Scenario.schedule
  = Some Scenario.final.
Proof. vm_compute. reflexivity. Qed.

Example scenario_db_run :
  processCommits_run 2 Scenario.ctx
    (start (processCommits_prog "select" ["A"; "B"]) tt) Scenario.dbSchedule
  = Some Scenario.dbFinal.
Proof. vm_compute. reflexivity. Qed.

Lemma pools_bounded_and_complete_witness :
  (1 ≤ 2
   ∧ processRepos_run 2 Scenario.ctx
       (start (processRepos_prog Scenario.ctx Scenario.order) ([], 0))
       Scenario.schedule = Some Scenario.final
   ∧ processCommits_run 2 Scenario.ctx
       (start (processCommits_prog "select" ["A"; "B"]) tt) Scenario.dbSchedule
     = Some Scenario.dbFinal)
  ∧ length (received Scenario.final) = 3%nat
  ∧ length (received Scenario.dbFinal) = 2%nat.
Proof.
  assert (1 ≤ 2) as Hn by lia.
  assert (processRepos_run 2 Scenario.ctx
            (start (processRepos_prog Scenario.ctx Scenario.order) ([], 0))
            Scenario.schedule = Some Scenario.final) as H1
    by (vm_compute; reflexivity).
  assert (processCommits_run 2 Scenario.ctx
            (start (processCommits_prog "select" ["A"; "B"]) tt) Scenario.dbSchedule
          = Some Scenario.dbFinal) as H2
    by (vm_compute; reflexivity).
  split; [by repeat split|].
  destruct (pools_bounded_and_complete 2 Scenario.ctx Scenario.order "select"
              ["A"; "B"] Scenario.schedule Scenario.dbSchedule _ _ Hn H1 H2)
    as [[_ Hr1] [_ Hr2]].
  split; [exact (proj2 (proj2 (Hr1 eq_refl)))|exact (proj2 (proj2 (Hr2 eq_refl)))].
Defined.

(** Without a limit of at least one the window does not bound
    anything: with [thrN = 0] its size never equals the limit. *)
Example window_needs_positive_limit :
  running <$> processCommits_run 0 Scenario.ctx
                (start (processCommits_prog "select" ["A"; "B"; "C"]) tt)
                [LSpawn; LSpawn; LSpawn]
  = Some 3%nat.
Proof. vm_compute. reflexivity. Qed.

(** ** Failures of sync units stay with the unit *)

(** The sync unit as the pool sees it. *)
Lemma repoUnit_spec ctx orgRepo rwd w b :
  dirExists (w_stat w) rwd = Ok (b, None) →
  repoUnit ctx (orgRepo, rwd) w
  = Ok (if w_exec w (syncCmd b orgRepo rwd) is None then orgRepo else "").
Proof.
  intros Hd. destruct rwd as [|a s]; [done|].
  rewrite dirExists_spec in Hd. injection Hd as Hd.
  pose proof (processRepo_shape w (set_exec ctx false true) orgRepo a s) as H.
  cbn zeta in H. rewrite Hd in H. destruct H as (pre & Hs & He & H).
  unfold repoUnit, reply. cbn [fst snd].
  destruct (w_exec w _); cbn [ExecFatal set_exec] in H; rewrite H; cbn;
    rewrite sends_app, Hs; done.
Qed.

Lemma repoUnit_Ok ctx it w r : repoUnit ctx it w = Ok r → r = "" ∨ r = it.1.
Proof.
  destruct it as [orgRepo [|a s]]; [done|]. intros H.
  destruct (classify (statPath (String a s)) (w_stat w (statPath (String a s))))
    as [b [e|]] eqn:Hc.
  - pose proof (processRepo_shape w (set_exec ctx false true) orgRepo a s) as Hp.
    cbn zeta in Hp. rewrite Hc in Hp. unfold repoUnit, reply in H. cbn [fst snd] in H.
    rewrite Hp in H. done.
  - rewrite (repoUnit_spec ctx orgRepo _ w b) in H by (by rewrite dirExists_spec, Hc).
    injection H as <-. destruct (w_exec w _); auto.
Qed.

Lemma foldl_collectRepo rs l n :
  foldl collectRepo (l, n) rs = (l ++ filter (fun r => r ≠ "") rs, n).
Proof.
  revert l. induction rs as [|r rs IH]; intros l; cbn [foldl].
  - by rewrite filter_nil, (right_id_L [] (++)).
  - unfold collectRepo at 2. cbn [fst snd]. case_decide.
    + rewrite IH, filter_cons_True by done. by rewrite <- (assoc_L (++)).
    + rewrite IH, filter_cons_False by auto. done.
Qed.

Lemma iter_countRepo k l n : Nat.iter k countRepo (l, n) = (l, n + Z.of_nat k).
Proof.
  induction k as [|k IH].
  - cbn. f_equal. lia.
  - rewrite Nat.iter_succ, IH. unfold countRepo. cbn. f_equal. lia.
Qed.

Lemma repoUnit_noConflict ctx it w :
  noConflict (w_stat w) → it.2 ≠ "" → ∃ r, repoUnit ctx it w = Ok r.
Proof.
  destruct it as [orgRepo [|a s]]; [done|]. intros Hw _.
  specialize (Hw (statPath (String a s))).
  assert (∃ b, dirExists (w_stat w) (String a s) = Ok (b, None)) as [b Hb].
  { rewrite dirExists_spec. destruct (w_stat w _) as [[]|? []]; cbn; eauto; done. }
  rewrite (repoUnit_spec ctx orgRepo _ w b Hb). eauto.
Qed.

Lemma repoInstr_benign ctx wd org repo o w :
  noConflict (w_stat w) → wellFormed repo →
  benign (repoUnit ctx) o w (repoInstr wd org repo).
Proof.
  intros Hw Hr. unfold wellFormed in Hr.
  destruct (Split repo "/") as [|a [|name [|??]]] eqn:Hs; try done.
  unfold repoInstr, repoDir, index. rewrite Hs. cbn.
  apply repoUnit_noConflict; [done|]. cbn [snd].
  destruct wd; [destruct org|]; done.
Qed.

Lemma processRepos_prog_benign ctx order o w :
  noConflict (w_stat w) →
  Forall (fun e => ensureDirObs (ReposDir ctx +:+ e.1) o = Ok tt
                   ∧ Forall wellFormed e.2) order →
  Forall (benign (repoUnit ctx) o w) (processRepos_prog ctx order).
Proof.
  intros Hw. unfold processRepos_prog.
  induction 1 as [|[org repos] order [Ho Hr] _ IH]; [constructor|].
  cbn [map concat]. apply Forall_app. split; [|done].
  constructor; [exact Ho|]. cbn [fst snd] in *.
  induction Hr as [|repo repos Hrepo _ IHr]; [constructor|].
  cbn [map]. constructor; [by apply repoInstr_benign|done].
Qed.

(** C3. A sync unit that fails (its clone or its reset and pull
    returns an error) hands the empty string to the pool: taking that
    step leaves the dispatcher where it is, the window, the other
    goroutines and [allOkRepos] untouched, and the process alive. When
    the pool has returned, every item of the batch has reported either
    the empty string or its own identifier, [allOkRepos] holds exactly
    the non-empty reports (a failed item has no entry), [checked]
    counts every item, and the summary line shows the one over the
    other. And the pool does return, whichever commands fail, as long
    as the directories can be made and no target path is taken by
    something that is not a directory. *)
Theorem failing_repo_is_isolated (thrN : Z) (ctx : Ctx)
    (order : list (string * list string)) (orgs : list string) :
  (∀ (ls : list (Label DirObs World)) (s : Pool RepoItem string RepoAcc DirObs),
     processRepos_run thrN ctx (start (processRepos_prog ctx order) ([], 0)) ls = Some s →
     (∀ c orgRepo rwd w b e,
        units s !! c = Some ((orgRepo, rwd) : RepoItem, @Running string) →
        pc s ≠ PcReturned → pc s ≠ PcAborted →
        dirExists (w_stat w) rwd = Ok (b, None) →
        w_exec w (syncCmd b orgRepo rwd) = Some e →
        processRepos_step thrN ctx s (LFinish c w)
        = Some (mkPool (pc s) (todo s) (chanPool s)
                  (<[c := ((orgRepo, rwd), Sending "")]> (units s)) (acc s)))
     ∧ (pc s = PcReturned →
        Forall2 (fun orgRepo r => r = "" ∨ r = orgRepo) (concat (order.*2)) (received s)
        ∧ (acc s).1 = filter (fun r => r ≠ "") (received s)
        ∧ (acc s).2 = Z.of_nat (length (concat (order.*2)))
        ∧ logged (processRepos_end ctx orgs s)
          = ["Sucesfully processed "
               +:+ fmt_d (Z.of_nat (length (filter (fun r => r ≠ "") (received s))))
               +:+ "/" +:+ fmt_d (Z.of_nat (length (concat (order.*2))))
               +:+ " repos" +:+ LF]))
  ∧ (∀ (o : DirObs) (w : World),
       noConflict (w_stat w) →
       Forall (fun e => ensureDirObs (ReposDir ctx +:+ e.1) o = Ok tt
                        ∧ Forall wellFormed e.2) order →
       ∃ ls s,
         processRepos_run thrN ctx (start (processRepos_prog ctx order) ([], 0)) ls = Some s
         ∧ pc s = PcReturned).
Proof.
  split.
  - intros ls s Hrun. split.
    + intros c orgRepo rwd w b e Hc Hp1 Hp2 Hd He.
      pose proof (repoUnit_spec ctx orgRepo rwd w b Hd) as Hu. rewrite He in Hu.
      unfold processRepos_step, step.
      destruct (pc s); try done.
      all: rewrite Hc; cbn beta iota; by rewrite Hu.
    + intros Hpc.
      pose proof (Inv_run thrN (repoUnit ctx) countRepo collectRepo _ ([], 0)
                    collectRepo_countRepo ls _ _ (Inv_start _ _ _ _ _) Hrun) as HI.
      pose proof (justified_run thrN (repoUnit ctx) countRepo collectRepo ls
                    (start (processRepos_prog ctx order) ([], 0)) _
                    (Forall_nil_2 _) Hrun) as HJ.
      destruct (Inv_returned _ _ _ _ _ _ HI Hpc) as (Hpass & Hu & Hd & Hlen & Hacc).
      pose proof (processRepos_prog_spawns _ _ Hpass) as Hs.
      pose proof (justified_received (repoUnit ctx) _ HJ Hd) as HR.
      fold (received s) in HR. rewrite Hu in HR.
      assert (acc s = (filter (fun r => r ≠ "") (received s),
                       Z.of_nat (length (concat (order.*2))))) as Ha.
      { rewrite Hacc, foldl_collectRepo, iter_countRepo. cbn [app].
        by rewrite <- Hs, length_fmap. }
      split; [|rewrite Ha; split; [done|split; [done|]]].
      * rewrite <- Hs. apply Forall2_fmap_l.
        eapply Forall2_impl; [exact HR|]. intros it r [w Hw]. by eapply repoUnit_Ok.
      * unfold processRepos_end, report, summary, logged. rewrite Ha. cbn [fst snd].
        rewrite omap_app. destruct (ExternalInfo ctx); done.
  - intros o w Hw Hord.
    apply (pool_returns thrN (repoUnit ctx) countRepo collectRepo _ ([], 0)
             collectRepo_countRepo o w).
    by apply processRepos_prog_benign.
Qed.

Lemma failing_repo_is_isolated_witness :
  processRepos_run 2 Scenario.ctx
    (start (processRepos_prog Scenario.ctx Scenario.order) ([], 0)) Scenario.schedule
  = Some Scenario.final
  ∧ (acc Scenario.final).1 = ["org1/repoX"; "org2/repoZ"]
  ∧ logged (processRepos_end Scenario.ctx ["org2"; "org1"] Scenario.final)
    = ["Sucesfully processed 2/3 repos" +:+ LF].
Proof.
  assert (processRepos_run 2 Scenario.ctx
            (start (processRepos_prog Scenario.ctx Scenario.order) ([], 0))
            Scenario.schedule = Some Scenario.final) as H1
    by (vm_compute; reflexivity).
  split; [exact H1|]. split; [reflexivity|].
  destruct (failing_repo_is_isolated 2 Scenario.ctx Scenario.order ["org2"; "org1"])
    as [H _].
  destruct (H Scenario.schedule Scenario.final H1) as [_ H2].
  destruct (H2 eq_refl) as (_ & _ & _ & ->). reflexivity.
Defined.

(** The scenario of the specification with every clone working: all
    three identifiers, and 3/3. *)
Example scenario_all_clones_work :
  processRepos_run 2 Scenario.ctx
    (start (processRepos_prog Scenario.ctx Scenario.order) ([], 0)) Scenario.okSchedule
  = Some Scenario.okFinal
  ∧ report Scenario.ctx (acc Scenario.okFinal).1 ["org2"; "org1"] (acc Scenario.okFinal).2
    = [EvStdout ("AllRepos:" +:+ LF +:+ "[" +:+ LF +:+ "  'org1/repoX'," +:+ LF
                   +:+ "  'org1/repoY'," +:+ LF +:+ "  'org2/repoZ'," +:+ LF
                   +:+ "]" +:+ LF);
       EvStdout ("Final command:" +:+ LF +:+ "./all_repos_log.sh /r/org1/* /r/org2/* "
                   +:+ LF);
       EvLog ("Sucesfully processed 3/3 repos" +:+ LF)].
Proof. split; vm_compute; reflexivity. Qed.

(** ** Fatal in the shard scanner, isolated in the sync unit *)

Lemma scans_false rows r e : r ∈ rows → scan2 r = inr e → forallb scans rows = false.
Proof.
  intros Hin Hr. induction Hin as [r rows|r r' rows Hin IH]; cbn.
  - unfold scans. by rewrite Hr.
  - rewrite IH by done. apply andb_false_r.
Qed.

Lemma step_aborted {Item Res Acc SeqObs Obs} thrN (unit_run : Item → Obs → Outcome Res)
    spawned collect (s : Pool Item Res Acc SeqObs) l :
  step thrN unit_run spawned collect (set_pc s PcAborted) l = None.
Proof. by destruct l. Qed.

(** C4. The two goroutine bodies treat errors in opposite ways. In the
    shard scanner every failure of the query goes through
    [lib.FatalOnError]: the error of [con.Query], the error of a row
    scan, and the error [rows.Err()] reports once the rows are read.
    The goroutine ends the process, the pool is aborted and takes no
    further step. In the sync unit a failed clone or reset and pull is
    an outcome of that unit alone: it sends the empty string, and the
    pool goes on. *)
Theorem asymmetric_error_policy (thrN : Z) (ctx : Ctx) (w : World) (c : nat)
    (db query : string) (sd : Pool DBItem bool unit unit)
    (orgRepo rwd : string) (b : bool) (e : error)
    (sr : Pool RepoItem string RepoAcc DirObs) :
  (units sd !! c = Some ((db, query) : DBItem, @Running bool) →
   pc sd ≠ PcReturned → pc sd ≠ PcAborted →
   (∃ e', w_query w db query = QueryError e')
   ∨ (∃ rows rowsErr r e', w_query w db query = QueryRows rows rowsErr
                           ∧ r ∈ rows ∧ scan2 r = inr e')
   ∨ (∃ rows e', w_query w db query = QueryRows rows (Some e')) →
   (∃ e', outcome (processCommitsDB w ctx db query) = Fatal e')
   ∧ processCommits_step thrN ctx sd (LFinish c w) = Some (set_pc sd PcAborted)
   ∧ ∀ l, processCommits_step thrN ctx (set_pc sd PcAborted) l = None)
  ∧ (units sr !! c = Some ((orgRepo, rwd) : RepoItem, @Running string) →
     pc sr ≠ PcReturned → pc sr ≠ PcAborted →
     dirExists (w_stat w) rwd = Ok (b, None) →
     w_exec w (syncCmd b orgRepo rwd) = Some e →
     outcome (processRepo w (set_exec ctx false true) orgRepo rwd) = Ok tt
     ∧ sends (trace (processRepo w (set_exec ctx false true) orgRepo rwd)) = [""]
     ∧ processRepos_step thrN ctx sr (LFinish c w)
       = Some (mkPool (pc sr) (todo sr) (chanPool sr)
                 (<[c := ((orgRepo, rwd), Sending "")]> (units sr)) (acc sr))).
Proof.
  split.
  - intros Hc Hp1 Hp2 Hq.
    assert (∃ e', outcome (processCommitsDB w ctx db query) = Fatal e') as [e' He'].
    { pose proof (processCommitsDB_shape w ctx db query) as H. cbn zeta in H.
      destruct Hq as [[e' Hq]|[(rows & rowsErr & r & e' & Hq & Hin & Hr)
                               |(rows & e' & Hq)]];
        rewrite Hq in H.
      - exists e'. by destruct H.
      - rewrite (scans_false rows r e' Hin Hr) in H. destruct H as (e2 & H & _). eauto.
      - destruct (forallb scans rows).
        + exists e'. by destruct H.
        + destruct H as (e2 & H & _). eauto. }
    split; [eauto|]. split; [|intros l; apply step_aborted].
    unfold processCommits_step, step.
    destruct (pc sd); try done.
    all: rewrite Hc; unfold dbUnit, reply; cbn [fst snd]; by rewrite He'.
  - intros Hc Hp1 Hp2 Hd He.
    destruct rwd as [|a s]; [done|].
    pose proof Hd as Hd'. rewrite dirExists_spec in Hd'. injection Hd' as Hd'.
    pose proof (processRepo_shape w (set_exec ctx false true) orgRepo a s) as H.
    cbn zeta in H. rewrite Hd' in H. destruct H as (pre & Hs & Hx & H).
    rewrite He in H. cbn [ExecFatal set_exec] in H.
    pose proof (repoUnit_spec ctx orgRepo _ w b Hd) as Hu. rewrite He in Hu.
    rewrite H. cbn [outcome trace]. rewrite sends_app, Hs.
    split; [done|]. split; [done|].
    unfold processRepos_step, step.
    destruct (pc sr); try done.
    all: rewrite Hc; cbn beta iota; by rewrite Hu.
Qed.

Lemma asymmetric_error_policy_witness :
  (w_query Scenario.lostWorld "A" "select"
   = QueryRows [RowCols ["4f0e"; "org1/repoX"]] (Some "driver: bad connection")
   ∧ (∃ e', outcome (processCommitsDB Scenario.lostWorld Scenario.ctx "A" "select")
            = Fatal e')
   ∧ processCommits_step 2 Scenario.ctx Scenario.lostState (LFinish 0%nat Scenario.lostWorld)
     = Some (set_pc Scenario.lostState PcAborted))
  ∧ outcome (processRepo Scenario.lostWorld (set_exec Scenario.ctx false true)
               "org1/repoY" "/r/org1/repoY") = Ok tt
  ∧ sends (trace (processRepo Scenario.lostWorld (set_exec Scenario.ctx false true)
                    "org1/repoY" "/r/org1/repoY")) = [""]
  ∧ pc <$> processRepos_step 2 Scenario.ctx Scenario.repoState
             (LFinish 0%nat Scenario.lostWorld)
    = Some PcLoop.
Proof.
  destruct (asymmetric_error_policy 2 Scenario.ctx Scenario.lostWorld 0 "A" "select"
              Scenario.lostState "org1/repoY" "/r/org1/repoY" false "exit status 128"
              Scenario.repoState) as [Hd Hr].
  split.
  - split; [reflexivity|].
    destruct Hd as (H1 & H2 & _); [reflexivity|discriminate|discriminate| |by split].
    right. right. exists [RowCols ["4f0e"; "org1/repoX"]], "driver: bad connection".
    reflexivity.
  - destruct Hr as (H1 & H2 & H3);
      [reflexivity|discriminate|discriminate|reflexivity|reflexivity|].
    split; [exact H1|]. split; [exact H2|]. rewrite H3. reflexivity.
Defined.

(** The three fatal paths of the shard scanner, one by one: the query
    fails, a row does not scan, the result set ends with an error. *)
Example processCommitsDB_fatal_paths :
  processCommitsDB Scenario.world Scenario.ctx "Z" reposQuery
  = mkProc [EvQuery "Z" reposQuery] (Fatal "pq: database does not exist")
  ∧ processCommitsDB Scenario.world Scenario.ctx "A" reposQuery
    = mkProc [EvQuery "A" reposQuery]
        (Fatal "sql: expected destination arguments in Scan")
  ∧ processCommitsDB Scenario.lostWorld Scenario.ctx "A" "select"
    = mkProc [EvQuery "A" "select"] (Fatal "driver: bad connection").
Proof. repeat split; vm_compute; reflexivity. Qed.

(** ** Strings *)

Lemma append_assoc (a b c : string) : (a +:+ b) +:+ c = a +:+ (b +:+ c).
Proof.
  induction a as [|x a IH]; [reflexivity|].
  change (String x ((a +:+ b) +:+ c) = String x (a +:+ b +:+ c)). by rewrite IH.
Qed.

Lemma append_nil_r (a : string) : a +:+ "" = a.
Proof.
  induction a as [|x a IH]; [reflexivity|].
  change (String x (a +:+ "") = String x a). by rewrite IH.
Qed.

(** ** The report *)

Section Joined.
Variable piece : string → string.

(** A loop [for _, x := range l { str += piece(x) }] extends [str]. *)
Lemma foldl_append (l : list string) (init : string) :
  foldl (fun str x => str +:+ piece x) init l
  = init +:+ foldl (fun str x => str +:+ piece x) "" l.
Proof.
  revert init. induction l as [|x l IH]; intros init; cbn [foldl].
  - by rewrite append_nil_r.
  - rewrite (IH (init +:+ piece x)), (IH ("" +:+ piece x)).
    change ("" +:+ piece x) with (piece x). by rewrite append_assoc.
Qed.

Lemma foldl_append_elem (l : list string) (init x : string) :
  x ∈ l →
  ∃ pre post, foldl (fun str x => str +:+ piece x) init l = pre +:+ piece x +:+ post.
Proof.
  revert init. induction l as [|y l IH]; intros init Hin; [by inversion Hin|].
  cbn [foldl]. apply elem_of_cons in Hin as [->|Hin].
  - exists init, (foldl (fun str x => str +:+ piece x) "" l).
    by rewrite foldl_append, append_assoc.
  - by apply IH.
Qed.
End Joined.

Lemma sort_Strings_sorted l : Sorted String.le (sort_Strings l).
Proof. apply (Sorted_merge_sort String.le). Qed.

Lemma sort_Strings_perm l : sort_Strings l ≡ₚ l.
Proof. apply (merge_sort_Permutation String.le). Qed.

(** Sorting makes the order of the input irrelevant. *)
Lemma sort_Strings_unique l1 l2 : l1 ≡ₚ l2 → sort_Strings l1 = sort_Strings l2.
Proof.
  intros H. apply (Sorted_unique String.le); try apply sort_Strings_sorted.
  by rewrite !sort_Strings_perm.
Qed.

(** The listing and the command, written out: one line per identifier
    between the brackets, one glob path per organization after the
    name of the script, in the order of the list. *)
Lemma rubyList_lines (l : list string) :
  rubyList l
  = "[" +:+ LF
      +:+ foldr (fun okRepo rest => "  '" +:+ okRepo +:+ "'," +:+ LF +:+ rest) "]" l.
Proof.
  unfold rubyList. rewrite <- (append_assoc "[" LF). generalize ("[" +:+ LF) as init.
  induction l as [|x l IH]; intros init; cbn [foldl foldr]; [done|].
  rewrite IH. by rewrite !append_assoc.
Qed.

Lemma finalCmd_paths (ctx : Ctx) (l : list string) :
  finalCmd ctx l
  = "./all_repos_log.sh "
      +:+ foldr (fun org rest => ReposDir ctx +:+ org +:+ "/* " +:+ rest) "" l.
Proof.
  unfold finalCmd, globPath. generalize "./all_repos_log.sh " as init.
  induction l as [|x l IH]; intros init; cbn [foldl foldr]; [by rewrite append_nil_r|].
  rewrite IH. by rewrite !append_assoc.
Qed.

(** C7. The report sorts the successful identifiers and the names of the
    organizations in increasing order. When [ExternalInfo] is set, and
    only then, it prints to standard output, and to standard output
    only, the listing (one line ['<identifier>',] per successful
    identifier, in sorted order, between brackets) and the shell
    command [./all_repos_log.sh] followed by the glob path
    [<ReposDir><organization>/*] of every organization, in sorted
    order. The one thing it logs is the summary line
    [Sucesfully processed <successes>/<checked> repos], the number of
    successful identifiers over the number of units started, which it
    logs whether the flag is set or not. *)
Theorem report_sorted_and_gated (ctx : Ctx) (allOkRepos orgs : list string) (checked : Z) :
  let out := report ctx allOkRepos orgs checked in
  let line := "Sucesfully processed " +:+ fmt_d (Z.of_nat (length allOkRepos)) +:+ "/"
                +:+ fmt_d checked +:+ " repos" +:+ LF in
  logged out = [line]
  ∧ (if ExternalInfo ctx then
       ∃ oks orgs',
         let listing :=
           "[" +:+ LF
             +:+ foldr (fun okRepo rest => "  '" +:+ okRepo +:+ "'," +:+ LF +:+ rest)
                   "]" oks in
         let command :=
           "./all_repos_log.sh "
             +:+ foldr (fun org rest => ReposDir ctx +:+ org +:+ "/* " +:+ rest) "" orgs' in
         Sorted String.le oks ∧ oks ≡ₚ allOkRepos
         ∧ Sorted String.le orgs' ∧ orgs' ≡ₚ orgs
         ∧ out = [EvStdout ("AllRepos:" +:+ LF +:+ listing +:+ LF);
                  EvStdout ("Final command:" +:+ LF +:+ command +:+ LF);
                  EvLog line]
         ∧ (∀ okRepo, okRepo ∈ allOkRepos →
              ∃ pre post, listing = pre +:+ ("  '" +:+ okRepo +:+ "'," +:+ LF) +:+ post)
         ∧ (∀ org, org ∈ orgs →
              ∃ pre post, command = pre +:+ (ReposDir ctx +:+ org +:+ "/* ") +:+ post)
     else out = [EvLog line]).
Proof.
  intros out line. subst out line. unfold report. split.
  - unfold logged. rewrite omap_app. by destruct (ExternalInfo ctx).
  - destruct (ExternalInfo ctx); [|done].
    exists (sort_Strings allOkRepos), (sort_Strings orgs). cbn zeta.
    rewrite <- rubyList_lines, <- finalCmd_paths.
    split; [apply sort_Strings_sorted|]. split; [apply sort_Strings_perm|].
    split; [apply sort_Strings_sorted|]. split; [apply sort_Strings_perm|].
    split; [done|]. split.
    + intros okRepo Hin. rewrite <- sort_Strings_perm in Hin.
      destruct (foldl_append_elem (fun okRepo => "  '" +:+ okRepo +:+ "'," +:+ LF)
                  _ ("[" +:+ LF) okRepo Hin) as (pre & post & H).
      exists pre, (post +:+ "]"). unfold rubyList. rewrite H.
      by rewrite !append_assoc.
    + intros org Hin. rewrite <- sort_Strings_perm in Hin.
      apply (foldl_append_elem (globPath ctx) _ _ org Hin).
Qed.

Example report_scenario :
  report Scenario.ctx ["org2/repoZ"; "org1/repoX"] ["org2"; "org1"] 3
  = [EvStdout ("AllRepos:" +:+ LF +:+ "[" +:+ LF +:+ "  'org1/repoX'," +:+ LF
                 +:+ "  'org2/repoZ'," +:+ LF +:+ "]" +:+ LF);
     EvStdout ("Final command:" +:+ LF +:+ "./all_repos_log.sh /r/org1/* /r/org2/* " +:+ LF);
     EvLog ("Sucesfully processed 2/3 repos" +:+ LF)].
Proof. vm_compute. reflexivity. Qed.

(** The report does not depend on the order in which the map is walked
    through nor on the order in which the units were received. *)
Lemma report_order_irrelevant ctx allOkRepos allOkRepos' orgs orgs' checked :
  allOkRepos ≡ₚ allOkRepos' → orgs ≡ₚ orgs' →
  report ctx allOkRepos orgs checked = report ctx allOkRepos' orgs' checked.
Proof.
  intros H1 H2. unfold report, summary.
  by rewrite (sort_Strings_unique _ _ H1), (sort_Strings_unique _ _ H2), H1.
Qed.

(** ** [strings.Split] *)

Lemma Split_cons s sep : ∃ w ws, Split s sep = w :: ws.
Proof.
  induction s as [|a s (w & ws & IH)]; cbn; [eauto|].
  destruct (Ascii.eqb a sep); [eauto|]. rewrite IH. eauto.
Qed.

Lemma Split_nosep s sep : contains sep s = false → Split s sep = [s].
Proof.
  induction s as [|a s IH]; cbn; [done|].
  destruct (Ascii.eqb a sep); [done|]. cbn. intros H. by rewrite IH.
Qed.

Lemma Split_append a b sep :
  contains sep a = false → Split (a +:+ String sep b) sep = a :: Split b sep.
Proof.
  induction a as [|x a IH]; intros H.
  - change ("" +:+ String sep b) with (String sep b). cbn.
    by rewrite Ascii.eqb_refl.
  - change (String x a +:+ String sep b) with (String x (a +:+ String sep b)).
    cbn in H |- *. destruct (Ascii.eqb x sep); [done|]. cbn in H.
    by rewrite IH.
Qed.

Lemma Split_single s sep b : Split s sep = [b] → s = b ∧ contains sep b = false.
Proof.
  revert b. induction s as [|a s IH]; intros b; cbn.
  - by intros [= <-].
  - destruct (Ascii.eqb a sep) eqn:Ha.
    + destruct (Split_cons s sep) as (w & ws & ->). done.
    + destruct (Split s sep) as [|w [|??]] eqn:Hs; intros [= <-].
      * destruct (Split_cons s sep) as (w & ws & ?). congruence.
      * destruct (IH w eq_refl) as [-> Hw]. cbn. by rewrite Ha.
Qed.

Lemma Split_pair s sep a b :
  Split s sep = [a; b] →
  s = a +:+ String sep b ∧ contains sep a = false ∧ contains sep b = false.
Proof.
  revert a. induction s as [|x s IH]; intros a; cbn; [done|].
  destruct (Ascii.eqb x sep) eqn:Hx.
  - intros [= <- Hs]. apply Ascii.eqb_eq in Hx as ->.
    destruct (Split_single s sep b Hs) as [-> Hb]. done.
  - destruct (Split s sep) as [|w ws] eqn:Hs; [done|].
    intros [= <- ->]. destruct (IH w eq_refl) as (-> & Hw & Hb).
    cbn. rewrite Hx. done.
Qed.

(** ** [getRepos] *)

Lemma addRepo_ok allRepos repo :
  wellFormed repo →
  addRepo allRepos repo
  = Ok (<[orgOf repo := default [] (allRepos !! orgOf repo) ++ [repo]]> allRepos).
Proof.
  unfold wellFormed, addRepo, orgOf. intros H.
  destruct (Split repo "/") as [|org ary]; [done|].
  rewrite decide_False by (rewrite H; lia). cbn.
  destruct (allRepos !! org) as [l|] eqn:Hl.
  - by rewrite Hl.
  - by rewrite lookup_insert_eq, insert_insert_eq.
Qed.

Lemma addRepo_bad allRepos repo :
  ¬ wellFormed repo → addRepo allRepos repo = Fatal ("invalid repo name: " +:+ repo).
Proof.
  unfold wellFormed, addRepo. intros H.
  rewrite decide_True by lia. done.
Qed.

Lemma addRepos_ok repos : ∀ allRepos,
  Forall wellFormed repos →
  ∃ allRepos', addRepos allRepos repos = Ok allRepos'
    ∧ ∀ org, default [] (allRepos' !! org)
             = default [] (allRepos !! org) ++ filter (fun r => orgOf r = org) repos.
Proof.
  induction repos as [|repo repos IH]; intros allRepos H.
  - exists allRepos. split; [done|]. intros org. by rewrite filter_nil, (right_id_L [] (++)).
  - inversion_clear H as [|?? Hr Hrs]. cbn [addRepos].
    rewrite (addRepo_ok _ _ Hr). obind.
    destruct (IH (<[orgOf repo := default [] (allRepos !! orgOf repo) ++ [repo]]> allRepos) Hrs)
      as (allRepos' & -> & Hl).
    exists allRepos'. split; [done|]. intros org. rewrite Hl.
    destruct (decide (orgOf repo = org)) as [<-|Hne].
    + rewrite lookup_insert_eq, filter_cons_True by done. cbn.
      by rewrite <- (assoc_L (++)).
    + rewrite lookup_insert_ne, filter_cons_False by done. done.
Qed.

Lemma addRepos_bad repos : ∀ allRepos repo,
  repo ∈ repos → ¬ wellFormed repo → ∃ e, addRepos allRepos repos = Fatal e.
Proof.
  induction repos as [|r repos IH]; intros allRepos repo Hin Hbad; [by inversion Hin|].
  cbn [addRepos]. destruct (decide (wellFormed r)) as [Hr|Hr].
  - rewrite (addRepo_ok _ _ Hr). cbn.
    apply elem_of_cons in Hin as [->|Hin]; [done|]. by eapply IH.
  - rewrite (addRepo_bad _ _ Hr). cbn. eauto.
Qed.

Lemma scanRepos_elem rows : ∀ acc repos repo,
  scanRepos rows acc = Ok repos → repo ∈ acc ∨ RowCols [repo] ∈ rows → repo ∈ repos.
Proof.
  induction rows as [|r rows IH]; intros acc repos repo; cbn.
  - intros [= <-] [H|H]; [done|by inversion H].
  - destruct (scan1 r) as [a|e] eqn:Hr; [|done]. intros Hs Hin.
    apply (IH _ _ _ Hs). destruct Hin as [Hin|Hin].
    + left. apply elem_of_app. by left.
    + apply elem_of_cons in Hin as [<-|Hin]; [|by right].
      left. cbn in Hr. injection Hr as <-. apply elem_of_app. right. by constructor.
Qed.

Lemma scanRepos_no_panic rows : ∀ acc msg, scanRepos rows acc ≠ Panic msg.
Proof.
  induction rows as [|r rows IH]; intros acc msg; cbn; [done|].
  destruct (scan1 r); [apply IH|done].
Qed.

Lemma indexDB_ok w allRepos db repos :
  shardRepos w db = Some repos → indexDB w allRepos db = addRepos allRepos repos.
Proof.
  unfold shardRepos, indexDB.
  destruct (w_query w db reposQuery) as [e|rows [e|]]; try done.
  destruct (scanRepos rows []) as [repos'| |]; try done. by intros [= ->].
Qed.

Lemma indexDB_bad w allRepos db rows rowsErr repo :
  w_query w db reposQuery = QueryRows rows rowsErr →
  RowCols [repo] ∈ rows → ¬ wellFormed repo →
  ∃ e, indexDB w allRepos db = Fatal e.
Proof.
  intros Hq Hin Hbad. unfold indexDB. rewrite Hq.
  destruct (scanRepos rows []) as [repos|e|msg] eqn:Hs; cbn.
  - destruct rowsErr as [e|]; cbn; [eauto|].
    apply (addRepos_bad repos allRepos repo); [|done].
    eapply scanRepos_elem; eauto.
  - eauto.
  - by apply scanRepos_no_panic in Hs.
Qed.

Lemma indexDBs_ok w order : ∀ allRepos,
  (∀ db, db ∈ order → ∃ repos, shardRepos w db = Some repos ∧ Forall wellFormed repos) →
  ∃ allRepos', indexDBs w allRepos order = Ok allRepos'
    ∧ ∀ org, default [] (allRepos' !! org)
             = default [] (allRepos !! org)
               ++ filter (fun r => orgOf r = org) (allShardRepos w order).
Proof.
  induction order as [|db order IH]; intros allRepos H.
  - exists allRepos. split; [done|]. intros org.
    unfold allShardRepos. cbn [map concat]. by rewrite filter_nil, (right_id_L [] (++)).
  - destruct (H db) as (repos & Hs & Hwf); [by left|].
    cbn [indexDBs]. rewrite (indexDB_ok _ _ _ _ Hs).
    destruct (addRepos_ok repos allRepos Hwf) as (m1 & -> & H1). obind.
    destruct (IH m1) as (m2 & -> & H2).
    { intros db' Hin. apply H. by right. }
    exists m2. split; [done|]. intros org.
    rewrite H2, H1. unfold allShardRepos. cbn [map concat]. rewrite Hs. cbn [default].
    by rewrite filter_app, (assoc_L (++)).
Qed.

Lemma indexDBs_bad w order : ∀ allRepos db rows rowsErr repo,
  db ∈ order → w_query w db reposQuery = QueryRows rows rowsErr →
  RowCols [repo] ∈ rows → ¬ wellFormed repo →
  ∃ e, indexDBs w allRepos order = Fatal e.
Proof.
  induction order as [|d order IH]; intros allRepos db rows rowsErr repo Hin Hq Hr Hbad;
    [by inversion Hin|].
  cbn [indexDBs]. apply elem_of_cons in Hin as [<-|Hin].
  - destruct (indexDB_bad w allRepos db rows rowsErr repo Hq Hr Hbad) as [e ->]. cbn. eauto.
  - destruct (indexDB w allRepos d) as [m|e|msg] eqn:Hd; cbn; [by eapply IH|eauto|].
    exfalso. revert Hd. unfold indexDB.
    destruct (w_query w d reposQuery) as [|rs re]; [done|].
    destruct (scanRepos rs []) as [repos| |] eqn:Hs; cbn; try done.
    + destruct re; cbn; [done|]. clear. revert allRepos.
      induction repos as [|r repos IHr]; intros allRepos; cbn; [done|].
      destruct (decide (wellFormed r)) as [Hw|Hw].
      * rewrite (addRepo_ok _ _ Hw). cbn. apply IHr.
      * rewrite (addRepo_bad _ _ Hw). done.
    + by apply scanRepos_no_panic in Hs.
Qed.

Lemma enabledDBs_lookup projects db :
  is_Some (enabledDBs projects !! db)
  ↔ ∃ p, p ∈ Projects projects ∧ Disabled p = false ∧ PDB p = db.
Proof.
  unfold enabledDBs.
  assert (∀ ps (m : gmap string bool),
            is_Some (foldl (fun dbs proj =>
                              if Disabled proj then dbs else <[PDB proj := true]> dbs) m ps
                     !! db)
            ↔ is_Some (m !! db) ∨ ∃ p, p ∈ ps ∧ Disabled p = false ∧ PDB p = db) as H.
  { induction ps as [|p ps IH]; intros m; cbn [foldl].
    - split; [by left|]. intros [?|(p & Hp & _)]; [done|by inversion Hp].
    - rewrite IH. destruct (Disabled p) eqn:Hd.
      + split; (intros [?|(q & Hq & Hq1 & Hq2)]; [by left|right]).
        * exists q. split; [by right|done].
        * apply elem_of_cons in Hq as [->|Hq]; [congruence|eauto].
      + split.
        * intros [Hm|(q & Hq & Hq1 & Hq2)].
          -- destruct (decide (PDB p = db)) as [Heq|Hne].
             ++ right. exists p. split; [by left|done].
             ++ rewrite lookup_insert_ne in Hm by done. by left.
          -- right. exists q. split; [by right|done].
        * intros [Hm|(q & Hq & Hq1 & Hq2)].
          -- left. destruct (decide (PDB p = db)) as [Heq|Hne].
             ++ rewrite Heq, lookup_insert_eq. eauto.
             ++ by rewrite lookup_insert_ne.
          -- apply elem_of_cons in Hq as [->|Hq]; [|eauto].
             left. rewrite Hq2, lookup_insert_eq. eauto. }
  rewrite H, lookup_empty. split; [intros [[? ?]|?]; done|by right].
Qed.

Lemma rangeOrder_elem {V} (m : gmap string V) order db :
  rangeOrder m order → (db ∈ order ↔ is_Some (m !! db)) ∧ NoDup order.
Proof.
  unfold rangeOrder. intros ->. split.
  - rewrite list_elem_of_fmap. split.
    + intros [[k v] [-> Hin]]. apply elem_of_map_to_list in Hin. cbn. eauto.
    + intros [v Hv]. exists (db, v). split; [done|]. by apply elem_of_map_to_list.
  - apply NoDup_fst_map_to_list.
Qed.

Lemma count_filter_org repo l :
  count repo (filter (fun r => orgOf r = orgOf repo) l) = count repo l.
Proof.
  unfold count. induction l as [|r l IH]; [done|].
  destruct (decide (r = repo)) as [->|Hne].
  - rewrite (filter_cons_True _ repo) by done.
    rewrite !(filter_cons_True (fun r => r = repo)) by done. cbn. by rewrite IH.
  - rewrite (filter_cons_False (fun r => r = repo) r l) by done.
    destruct (decide (orgOf r = orgOf repo)).
    + rewrite (filter_cons_True _ r) by done.
      rewrite (filter_cons_False (fun r => r = repo)) by done. done.
    + rewrite (filter_cons_False _ r) by done. done.
Qed.

Lemma count_filter_other repo org l :
  org ≠ orgOf repo → count repo (filter (fun r => orgOf r = org) l) = 0%nat.
Proof.
  intros Hne. unfold count. induction l as [|r l IH]; [done|].
  destruct (decide (orgOf r = org)) as [Heq|Hne'].
  - rewrite (filter_cons_True _ r) by done.
    rewrite filter_cons_False; [done|]. intros ->. done.
  - by rewrite (filter_cons_False _ r) by done.
Qed.

(** The scan loop of lines 70-73 keeps every row, in order. *)
Lemma scanRepos_rows (repos acc : list string) :
  scanRepos (map (fun repo => RowCols [repo]) repos) acc = Ok (acc ++ repos).
Proof.
  revert acc. induction repos as [|repo repos IH]; intros acc; cbn.
  - by rewrite (right_id_L [] (++)).
  - rewrite IH. by rewrite <- (assoc_L (++)).
Qed.

Lemma shardRepos_rows w db (repos : list string) :
  w_query w db reposQuery = QueryRows (map (fun repo => RowCols [repo]) repos) None →
  shardRepos w db = Some repos.
Proof. intros H. unfold shardRepos. by rewrite H, scanRepos_rows. Qed.

Lemma allShardRepos_rows w (rowsOf : string → list string) order :
  (∀ db, db ∈ order →
     w_query w db reposQuery
     = QueryRows (map (fun repo => RowCols [repo]) (rowsOf db)) None) →
  allShardRepos w order = concat (map rowsOf order).
Proof.
  unfold allShardRepos. induction order as [|db order IH]; intros H; [done|].
  cbn [map concat]. rewrite (shardRepos_rows w db (rowsOf db)) by (apply H; by left).
  cbn [default]. f_equal. apply IH. intros db' Hin. apply H. by right.
Qed.

(** C8. When the manifest is read and every enabled shard answers the
    query with rows of one column, the identifiers [rowsOf db], all of
    them well-formed, [getRepos] returns, with the set of the databases
    of the enabled projects, each of them read once, a map in which the
    list of an organization is made of the identifiers of that
    organization in the rows of all shards, in the order they were
    returned: an identifier [org/name] stands in the list of [org] as
    many times as it occurs in all the result sets together (what two
    shards both hold is appended twice), and in no other list. *)
Theorem getRepos_keeps_every_occurrence (DataDir : string) (w : World) (ctx : Ctx)
    (data : string) (projects : AllProjects) (order : list string)
    (rowsOf : string → list string) :
  w_readFile w (dataPrefix DataDir ctx +:+ "projects.yaml") = inr data →
  w_unmarshal w data = inr projects →
  rangeOrder (enabledDBs projects) order →
  (∀ db, db ∈ order →
     w_query w db reposQuery
     = QueryRows (map (fun repo => RowCols [repo]) (rowsOf db)) None
     ∧ Forall wellFormed (rowsOf db)) →
  let returned := concat (map rowsOf order) in
  ∃ allRepos,
    getRepos DataDir w ctx order = Ok (enabledDBs projects, allRepos)
    ∧ (∀ org, default [] (allRepos !! org) = filter (fun r => orgOf r = org) returned)
    ∧ (∀ repo, count repo (default [] (allRepos !! orgOf repo)) = count repo returned
               ∧ ∀ org, org ≠ orgOf repo → count repo (default [] (allRepos !! org)) = 0%nat)
    ∧ (∀ org name, contains "/" org = false → contains "/" name = false →
         count (org +:+ "/" +:+ name) (default [] (allRepos !! org))
         = count (org +:+ "/" +:+ name) returned
         ∧ ∀ org', org' ≠ org →
             count (org +:+ "/" +:+ name) (default [] (allRepos !! org')) = 0%nat)
    ∧ NoDup order
    ∧ (∀ db, db ∈ order ↔ ∃ p, p ∈ Projects projects ∧ Disabled p = false ∧ PDB p = db)
    ∧ (∀ db, is_Some (enabledDBs projects !! db)
             ↔ ∃ p, p ∈ Projects projects ∧ Disabled p = false ∧ PDB p = db).
Proof.
  intros Hread Hyaml Horder Hrows returned.
  assert (∀ db, db ∈ order →
            ∃ repos, shardRepos w db = Some repos ∧ Forall wellFormed repos) as Hshards.
  { intros db Hin. destruct (Hrows db Hin) as [Hq Hwf].
    exists (rowsOf db). split; [by apply shardRepos_rows|done]. }
  assert (allShardRepos w order = returned) as Hall.
  { apply allShardRepos_rows. intros db Hin. by destruct (Hrows db Hin). }
  destruct (indexDBs_ok w order ∅ Hshards) as (allRepos & Hidx & Hl).
  rewrite Hall in Hl.
  exists allRepos. split.
  { unfold getRepos. rewrite Hread. obind.
    rewrite Hyaml. obind. by rewrite Hidx. }
  assert (∀ org, default [] (allRepos !! org)
                 = filter (fun r => orgOf r = org) returned) as Hl'.
  { intros org. rewrite Hl, lookup_empty. done. }
  assert (∀ repo, count repo (default [] (allRepos !! orgOf repo)) = count repo returned
                  ∧ ∀ org, org ≠ orgOf repo →
                      count repo (default [] (allRepos !! org)) = 0%nat) as Hc.
  { intros repo. split.
    - rewrite Hl'. apply count_filter_org.
    - intros org Hne. rewrite Hl'. by apply count_filter_other. }
  split; [done|]. split; [done|]. split.
  { intros org name Ho Hn.
    assert (orgOf (org +:+ "/" +:+ name) = org) as Horg.
    { unfold orgOf. change (org +:+ "/" +:+ name) with (org +:+ String "/" name).
      by rewrite (Split_append _ _ _ Ho). }
    destruct (Hc (org +:+ "/" +:+ name)) as [H1 H2]. rewrite Horg in H1, H2.
    split; [done|]. intros org' Hne. by apply H2. }
  split; [by apply (rangeOrder_elem _ _ "" Horder)|]. split.
  - intros db. rewrite (proj1 (rangeOrder_elem _ _ db Horder)). apply enabledDBs_lookup.
  - apply enabledDBs_lookup.
Qed.

Example getRepos_scenario :
  getRepos Scenario.DataDir Scenario.world Scenario.ctx ["A"; "B"]
  = Ok ({[ "A" := true; "B" := true ]},
        {[ "org1" := ["org1/repoX"; "org1/repoY"]; "org2" := ["org2/repoZ"] ]}).
Proof. vm_compute. reflexivity. Qed.

Lemma getRepos_keeps_every_occurrence_witness :
  rangeOrder (enabledDBs Scenario.manifest) ["A"; "B"]
  ∧ w_query Scenario.dupWorld "A" reposQuery
    = QueryRows [RowCols ["org1/repoX"]; RowCols ["org1/repoY"]] None
  ∧ w_query Scenario.dupWorld "B" reposQuery = QueryRows [RowCols ["org1/repoX"]] None
  ∧ ∃ allRepos,
      getRepos Scenario.DataDir Scenario.dupWorld Scenario.ctx ["A"; "B"]
      = Ok (enabledDBs Scenario.manifest, allRepos)
      ∧ default [] (allRepos !! "org1") = ["org1/repoX"; "org1/repoY"; "org1/repoX"]
      ∧ count "org1/repoX" (default [] (allRepos !! "org1")) = 2%nat.
Proof.
  assert (rangeOrder (enabledDBs Scenario.manifest) ["A"; "B"]) as Hord
    by (unfold rangeOrder; vm_compute; reflexivity).
  split; [exact Hord|]. split; [reflexivity|]. split; [reflexivity|].
  destruct (getRepos_keeps_every_occurrence Scenario.DataDir Scenario.dupWorld
              Scenario.ctx "projects: ..." Scenario.manifest ["A"; "B"]
              (fun db => if decide (db = "A") then ["org1/repoX"; "org1/repoY"]
                         else ["org1/repoX"])
              eq_refl eq_refl Hord) as (allRepos & Hget & Hl & _).
  { intros db Hin. apply elem_of_cons in Hin as [->|Hin].
    - split; [reflexivity|]. repeat constructor.
    - apply elem_of_cons in Hin as [->|Hin]; [|by inversion Hin].
      split; [reflexivity|]. repeat constructor. }
  exists allRepos. split; [exact Hget|]. split.
  - rewrite Hl. reflexivity.
  - rewrite Hl. reflexivity.
Defined.

(** C2, the claim as it stands, fails: the check of line 79 counts the
    parts and does not look into them. The identifier ["a/"] splits
    into ["a"] and the empty string; [getRepos] does not abort and
    files it under the organization ["a"]. *)
Lemma getRepos_accepts_empty_part :
  ¬ twoNonEmptyParts "a/"
  ∧ shardRepos Scenario.slashWorld "A" = Some ["a/"]
  ∧ getRepos Scenario.DataDir Scenario.slashWorld Scenario.ctx ["A"; "B"]
    = Ok ({[ "A" := true; "B" := true ]},
          {[ "a" := ["a/"]; "org2" := ["org2/repoZ"] ]}).
Proof.
  split; [|split; vm_compute; reflexivity].
  intros (a & b & H & _ & Hb). vm_compute in H. by injection H as <- <-.
Qed.

Lemma wellFormed_iff repo :
  wellFormed repo
  ↔ ∃ org name, repo = org +:+ "/" +:+ name
                ∧ contains "/" org = false ∧ contains "/" name = false.
Proof.
  unfold wellFormed. split.
  - destruct (Split repo "/") as [|a [|b [|??]]] eqn:Hs; try done. intros _.
    exists a, b. by apply Split_pair.
  - intros (org & name & -> & Ho & Hn).
    change (org +:+ "/" +:+ name) with (org +:+ String "/" name).
    by rewrite (Split_append _ _ _ Ho), (Split_nosep _ _ Hn).
Qed.

(** C2, amended. If a shard that is read returns an identifier that
    does not split on ['/'] into exactly two parts (it does not hold
    exactly one separator), [getRepos] ends in [lib.FatalOnError]: it
    returns no map, whatever the order of the shards and whatever the
    other rows are. The record is not skipped. *)
Theorem getRepos_rejects_malformed (DataDir : string) (w : World) (ctx : Ctx)
    (order : list string) (db : string) (rows : list Row) (rowsErr : option error)
    (repo : string) :
  db ∈ order →
  w_query w db reposQuery = QueryRows rows rowsErr →
  RowCols [repo] ∈ rows →
  length (Split repo "/") ≠ 2%nat →
  ∃ e, getRepos DataDir w ctx order = Fatal e.
Proof.
  intros Hdb Hq Hr Hbad. unfold getRepos.
  destruct (w_readFile w _) as [e|data]; obind; [eauto|].
  destruct (w_unmarshal w data) as [e|projects]; obind;
    [eauto|].
  destruct (indexDBs_bad w order ∅ db rows rowsErr repo Hdb Hq Hr Hbad) as [e ->].
  cbn. eauto.
Qed.

Lemma getRepos_rejects_malformed_witness :
  length (Split "justaname" "/") ≠ 2%nat
  ∧ ∃ e, getRepos Scenario.DataDir Scenario.badWorld Scenario.ctx ["A"; "B"] = Fatal e.
Proof.
  assert (length (Split "justaname" "/") ≠ 2%nat) as Hbad by (cbn; lia).
  split; [exact Hbad|].
  apply (getRepos_rejects_malformed Scenario.DataDir Scenario.badWorld Scenario.ctx
           ["A"; "B"] "B" [RowCols ["org2/repoZ"]; RowCols ["justaname"]] None
           "justaname").
  - apply elem_of_cons. right. apply elem_of_cons. by left.
  - reflexivity.
  - apply elem_of_cons. right. apply elem_of_cons. by left.
  - exact Hbad.
Defined.

Example getRepos_malformed_examples :
  getRepos Scenario.DataDir Scenario.badWorld Scenario.ctx ["A"; "B"]
  = Fatal "invalid repo name: justaname"
  ∧ addRepo ∅ "a/b/c" = Fatal "invalid repo name: a/b/c"
  ∧ addRepo ∅ "" = Fatal "invalid repo name: ".
Proof. repeat split; vm_compute; reflexivity. Qed.

(** ** The working directory of a repository *)

Lemma substring_prefix (a b : string) :
  String.substring 0 (String.length a) (a +:+ b) = a.
Proof.
  induction a as [|x a IH]; [by destruct b|].
  change (String x a +:+ b) with (String x (a +:+ b)). cbn. by rewrite IH.
Qed.

Lemma substring_suffix (a b : string) :
  String.substring (String.length a) (String.length b) (a +:+ b) = b.
Proof.
  induction a as [|x a IH].
  - change ("" +:+ b) with b. cbn [String.length].
    induction b as [|y b IHb]; [done|]. cbn. by rewrite IHb.
  - change (String x a +:+ b) with (String x (a +:+ b)). cbn. by rewrite IH.
Qed.

Lemma length_append (a b : string) :
  String.length (a +:+ b) = (String.length a + String.length b)%nat.
Proof.
  induction a as [|x a IH]; [done|].
  change (String x a +:+ b) with (String x (a +:+ b)). cbn. by rewrite IH.
Qed.

Lemma statPath_trailing (root : string) : statPath (root +:+ "/") = root.
Proof.
  unfold statPath.
  assert (len (root +:+ "/") = len root + 1) as Hl.
  { unfold len. rewrite length_append. cbn. lia. }
  pose proof (len_nonneg root) as Hr.
  rewrite (slice_ok (root +:+ "/") (len (root +:+ "/") - 1) (len (root +:+ "/"))) by lia.
  rewrite (slice_ok (root +:+ "/") 0 (len (root +:+ "/") - 1)) by lia.
  rewrite Hl.
  replace (Z.to_nat (len root + 1 - 1)) with (String.length root) by (unfold len; lia).
  replace (Z.to_nat (len root + 1 - (len root + 1 - 1))) with (String.length "/")
    by (cbn; lia).
  rewrite substring_suffix. cbn [String.eqb Ascii.eqb Bool.eqb].
  replace (Z.to_nat (len root + 1 - 1 - 0)) with (String.length root) by (unfold len; lia).
  change (Z.to_nat 0) with 0%nat. by rewrite substring_prefix.
Qed.

Lemma statPath_other (root : string) (a : ascii) :
  a ≠ "/"%char → statPath (root +:+ String a "") = root +:+ String a "".
Proof.
  intros Ha. unfold statPath.
  assert (len (root +:+ String a "") = len root + 1) as Hl.
  { unfold len. rewrite length_append. cbn. lia. }
  pose proof (len_nonneg root) as Hr.
  rewrite (slice_ok _ (len (root +:+ String a "") - 1) (len (root +:+ String a ""))) by lia.
  rewrite Hl.
  replace (Z.to_nat (len root + 1 - 1)) with (String.length root) by (unfold len; lia).
  replace (Z.to_nat (len root + 1 - (len root + 1 - 1))) with (String.length (String a ""))
    by (cbn; lia).
  rewrite substring_suffix. cbn [String.eqb].
  destruct (Ascii.eqb_spec a "/"); [done|]. done.
Qed.

Lemma repoDir_Split wd org orgRepo name :
  Split orgRepo "/" = [org; name] →
  repoDir wd org orgRepo = Ok (wd +:+ org +:+ "/" +:+ name).
Proof.
  intros H. unfold repoDir, index. rewrite H. cbn. by rewrite append_assoc.
Qed.



(** ** From the index to the work items *)

Lemma repoDir_wellFormed wd repo :
  wellFormed repo → repoDir wd (orgOf repo) repo = Ok (wd +:+ repo).
Proof.
  unfold wellFormed, orgOf. intros H.
  destruct (Split repo "/") as [|a [|b [|??]]] eqn:Hs; try done.
  rewrite (repoDir_Split wd a repo b Hs).
  by destruct (Split_pair _ _ _ _ Hs) as (-> & _ & _).
Qed.

Lemma addRepo_Ok_wellFormed allRepos repo allRepos' :
  addRepo allRepos repo = Ok allRepos' → wellFormed repo.
Proof.
  intros H. destruct (decide (wellFormed repo)) as [|Hbad]; [done|].
  by rewrite (addRepo_bad _ _ Hbad) in H.
Qed.

Lemma addRepos_filed repos : ∀ allRepos allRepos',
  filed allRepos → addRepos allRepos repos = Ok allRepos' → filed allRepos'.
Proof.
  induction repos as [|repo repos IH]; intros m m' Hm; cbn [addRepos].
  - by intros [= <-].
  - destruct (addRepo m repo) as [m1| |] eqn:H1; obind; try done.
    apply IH. pose proof (addRepo_Ok_wellFormed _ _ _ H1) as Hwf.
    rewrite (addRepo_ok _ _ Hwf) in H1. injection H1 as <-.
    intros org rs. destruct (decide (orgOf repo = org)) as [<-|Hne].
    + rewrite lookup_insert_eq. intros [= <-]. apply Forall_app. split.
      * destruct (m !! orgOf repo) as [l|] eqn:Hl; [by apply (Hm _ _ Hl)|constructor].
      * by repeat constructor.
    + rewrite lookup_insert_ne by done. apply Hm.
Qed.

Lemma indexDBs_filed w order : ∀ allRepos allRepos',
  filed allRepos → indexDBs w allRepos order = Ok allRepos' → filed allRepos'.
Proof.
  induction order as [|db order IH]; intros m m' Hm; cbn [indexDBs].
  - by intros [= <-].
  - destruct (indexDB w m db) as [m1| |] eqn:H1; obind; try done.
    apply IH. revert H1. unfold indexDB.
    destruct (w_query w db reposQuery) as [|rows rowsErr]; [done|].
    destruct (scanRepos rows []) as [repos| |]; obind; try done.
    destruct rowsErr; obind; [done|].
    by apply addRepos_filed.
Qed.

(** Whatever [getRepos] returns, every identifier of the map stands
    under its own organization and has exactly two parts: the loop of
    [processRepos] starts a sync unit for each, on [ReposDir] followed
    by the identifier. *)
Lemma getRepos_filed DataDir w ctx order dbs allRepos :
  getRepos DataDir w ctx order = Ok (dbs, allRepos) →
  filed allRepos
  ∧ ∀ org repos repo, allRepos !! org = Some repos → repo ∈ repos →
      repoInstr (ReposDir ctx) org repo = ISpawn (repo, ReposDir ctx +:+ repo).
Proof.
  unfold getRepos.
  destruct (w_readFile w _); obind; [done|].
  destruct (w_unmarshal w _); obind; [done|].
  destruct (indexDBs w ∅ order) as [m| |] eqn:Hidx; obind; try done.
  intros [= _ <-].
  assert (filed m) as Hf.
  { apply (indexDBs_filed w order ∅ m); [|done]. intros org rs. by rewrite lookup_empty. }
  split; [done|]. intros org repos repo Hl Hin.
  pose proof (Hf _ _ Hl) as Hall. rewrite Forall_forall in Hall.
  destruct (Hall _ Hin) as [Hwf <-].
  unfold repoInstr. by rewrite (repoDir_wellFormed _ _ Hwf).
Qed.

(** * Further properties *)

(** ** More on the window *)

Section PoolOrder.
Context {Item Res Acc SeqObs Obs : Type}.
Variable thrN : Z.
Variable unit_run : Item → Obs → Outcome Res.
Variable spawned : Acc → Acc.
Variable collect : Acc → Res → Acc.
Variable prog : list (Instr Item SeqObs).
Variable acc0 : Acc.
Hypothesis collect_spawned : ∀ a r, collect (spawned a) r = spawned (collect a r).

Local Abbreviation PoolT := (Pool Item Res Acc SeqObs).
Local Abbreviation stepP := (step (SeqObs := SeqObs) thrN unit_run spawned collect).
Local Abbreviation runP := (run (SeqObs := SeqObs) thrN unit_run spawned collect).
Local Abbreviation Inv := (Inv thrN spawned collect prog acc0).
Local Abbreviation result := (fun u : Item * UnitState Res =>
                                match u.2 with Done r => Some r | _ => None end).

Lemma result_done_length (us : list (Item * UnitState Res)) :
  Forall (fun u => is_done u = true) us → length (omap result us) = length us.
Proof.
  induction 1 as [|[it [| |r]] us H _ IH]; try done. cbn. by rewrite IH.
Qed.

(** The window is the range of the channels not yet received from. *)
Lemma Inv_fifo (s : PoolT) :
  Inv s →
  chanPool s = seq (length (received s)) (in_flight s)
  ∧ Forall (fun u => is_done u = true) (take (length (received s)) (units s))
  ∧ Forall (fun u => is_done u = false) (drop (length (received s)) (units s)).
Proof.
  intros HI. destruct (Inv_running thrN spawned collect prog acc0 s HI) as [_ Hfl].
  destruct HI as [dn pd cs H1 H2 H3 H4 H5 Hg Hi Hq H7 H8 H9].
  assert (length (received s) = length dn) as Hd.
  { unfold received. rewrite H1, omap_app, length_app, (result_notdone pd H3).
    rewrite (result_done_length dn H2). cbn. lia. }
  rewrite Hfl, Hd, H4, length_seq, H1, take_app_length, drop_app_length. done.
Qed.

(** The bookkeeping follows the goroutines: so many spawned, so many
    received, never more than there are items. *)
Lemma Inv_counts (s : PoolT) :
  Inv s →
  acc s = Nat.iter (length (units s)) spawned (foldl collect acc0 (received s))
  ∧ (length (received s) ≤ length (units s) ≤ length (spawns prog))%nat
  ∧ (pc s = PcLoop → ∀ it rest, todo s = ISpawn it :: rest →
       length (units s) < length (spawns prog))%nat
  ∧ (length (chanPool s) ≤ length (units s))%nat.
Proof.
  intros [dn pd cs H1 H2 H3 H4 H5 Hg Hi Hq H7 H8 H9].
  assert (length (received s) = length dn) as Hd.
  { unfold received. rewrite H1, omap_app, length_app, (result_notdone pd H3).
    rewrite (result_done_length dn H2). cbn. lia. }
  assert (length (spawns prog) = length (units s) + length (spawns (todo s)))%nat as Hl.
  { rewrite Hg. unfold spawns. rewrite omap_app, length_app. fold (spawns cs).
    by rewrite Hi, length_fmap. }
  assert (length (units s) = length dn + length pd)%nat as Hu
    by (by rewrite H1, length_app).
  split; [done|]. split; [|split].
  - lia.
  - intros _ it rest Htd. rewrite Hl, Htd. cbn. lia.
  - rewrite H4, length_seq. lia.
Qed.

Local Abbreviation slack := (slack thrN prog).

Lemma unthrottled_step (s s' : PoolT) l :
  slack → Inv s →
  pc s ≠ PcAwait ∧ (pc s = PcLoop → Forall (fun u => is_done u = false) (units s)) →
  stepP s l = Some s' →
  pc s' ≠ PcAwait ∧ (pc s' = PcLoop → Forall (fun u => is_done u = false) (units s')).
Proof.
  intros Hslack HI [Hna Hnd] Hstep.
  destruct (Inv_counts s HI) as (_ & _ & Hlt & Hcp).
  destruct s as [p td cp us a]. cbn [pc todo chanPool units acc] in *.
  destruct l as [o| |c o| | |]; destruct p; cbn in Hstep; try done.
  all: repeat match type of Hstep with
         | context [match ?x with _ => _ end] => destruct x eqn:?; try done
         end.
  all: injection Hstep as <-; cbn [pc units set_pc]; try (split; [done|]; try done).
  all: try (intros _; specialize (Hnd eq_refl)).
  all: try (apply Forall_insert; [done|done]).
  all: try (apply Forall_app; split; [done|by constructor]).
  all: try by auto.
  all: exfalso; subst.
  all: specialize (Hlt eq_refl _ _ eq_refl); rewrite length_app in *; cbn [length] in *.
  all: destruct Hslack; lia.
Qed.

Lemma unthrottled_run ls : ∀ s s' : PoolT,
  slack → Inv s →
  pc s ≠ PcAwait ∧ (pc s = PcLoop → Forall (fun u => is_done u = false) (units s)) →
  runP s ls = Some s' →
  pc s' ≠ PcAwait ∧ (pc s' = PcLoop → Forall (fun u => is_done u = false) (units s')).
Proof.
  induction ls as [|l ls IH]; intros s s' Hslack HI HJ Hrun; cbn in Hrun.
  - by injection Hrun as <-.
  - destruct (stepP s l) as [s1|] eqn:Hs; [|done].
    apply (IH s1 s' Hslack); [|by eapply unthrottled_step|done].
    by eapply Inv_step.
Qed.

Lemma notdone_in_flight (us : list (Item * UnitState Res)) :
  Forall (fun u => is_done u = false) us →
  length (filter (fun u => negb (is_done u)) us) = length us
  ∧ omap result us = [].
Proof.
  intros H. split; [|by apply result_notdone].
  induction H as [|u us Hu _ IH]; [done|].
  rewrite filter_cons_True; [cbn; by rewrite IH|]. rewrite Hu. cbn. auto.
Qed.
End PoolOrder.

(** ** Further properties of the two pools *)

Lemma repoPool_reachable thrN ctx order ls s :
  processRepos_run thrN ctx (start (processRepos_prog ctx order) ([], 0)) ls = Some s →
  Inv thrN countRepo collectRepo (processRepos_prog ctx order) ([], 0) s
  ∧ Forall (justified (repoUnit ctx)) (units s).
Proof.
  intros Hrun. split.
  - exact (Inv_run thrN (repoUnit ctx) countRepo collectRepo _ ([], 0)
             collectRepo_countRepo ls _ _ (Inv_start _ _ _ _ _) Hrun).
  - exact (justified_run thrN (repoUnit ctx) countRepo collectRepo ls
             (start (processRepos_prog ctx order) ([], 0)) _ (Forall_nil_2 _) Hrun).
Qed.

Lemma dbPool_reachable thrN ctx sqlQuery dbs ls s :
  processCommits_run thrN ctx (start (processCommits_prog sqlQuery dbs) tt) ls = Some s →
  Inv thrN id (fun (a : unit) (_ : bool) => a) (processCommits_prog sqlQuery dbs) tt s.
Proof.
  intros Hrun.
  exact (Inv_run thrN (dbUnit ctx) id (fun a _ => a) _ tt
           (fun _ _ => eq_refl) ls _ _ (Inv_start _ _ _ _ _) Hrun).
Qed.

Lemma repoInstrs_spawns_sublist wd org repos :
  (spawns (map (repoInstr wd org) repos)).*1 `sublist_of` repos.
Proof.
  induction repos as [|repo repos IH]; [done|].
  cbn [map]. unfold repoInstr at 1. destruct (repoDir wd org repo); cbn.
  - by apply sublist_skip.
  - by apply sublist_cons.
  - by apply sublist_cons.
Qed.

Lemma processRepos_prog_spawns_sublist ctx order :
  (spawns (processRepos_prog ctx order)).*1 `sublist_of` concat (order.*2).
Proof.
  unfold processRepos_prog. induction order as [|[org repos] order IH]; [done|].
  cbn [map concat fmap list_fmap].
  change (orgInstrs (ReposDir ctx) (org, repos))
    with (ISeq (ensureDirObs (ReposDir ctx +:+ org))
            :: map (repoInstr (ReposDir ctx) org) repos).
  rewrite spawns_app, fmap_app.
  change (spawns (ISeq ?b :: ?l)) with (spawns l).
  apply sublist_app; [apply repoInstrs_spawns_sublist|done].
Qed.

Lemma reports_sublist (items : list RepoItem) (rs : list string) :
  Forall2 (fun (it : RepoItem) r => r = "" ∨ r = it.1) items rs →
  filter (fun r => r ≠ "") rs `sublist_of` items.*1.
Proof.
  induction 1 as [|it r items rs [->| ->] _ IH]; [done| |].
  - rewrite filter_cons_False by auto. cbn. by apply sublist_cons.
  - cbn [fmap list_fmap]. destruct (decide (it.1 = "")) as [He|Hne].
    + rewrite filter_cons_False by auto. by apply sublist_cons.
    + rewrite filter_cons_True by done. by apply sublist_skip.
Qed.

(** X1. In every state either pool can reach, whatever the limit, the
    window [chanPool] is the run of the channels of the goroutines not
    yet received from, in the order they were started: the goroutines
    received from are exactly the first ones started. The dispatcher
    never takes the value of a goroutine before that of an older one. *)
Theorem window_is_fifo (thrN : Z) (ctx : Ctx)
    (order : list (string * list string)) (sqlQuery : string) (dbs : list string)
    (ls1 : list (Label DirObs World)) (ls2 : list (Label unit World))
    (s1 : Pool RepoItem string RepoAcc DirObs) (s2 : Pool DBItem bool unit unit) :
  processRepos_run thrN ctx (start (processRepos_prog ctx order) ([], 0)) ls1 = Some s1 →
  processCommits_run thrN ctx (start (processCommits_prog sqlQuery dbs) tt) ls2 = Some s2 →
  (chanPool s1 = seq (length (received s1)) (in_flight s1)
   ∧ Forall (fun u => is_done u = true) (take (length (received s1)) (units s1))
   ∧ Forall (fun u => is_done u = false) (drop (length (received s1)) (units s1)))
  ∧ (chanPool s2 = seq (length (received s2)) (in_flight s2)
     ∧ Forall (fun u => is_done u = true) (take (length (received s2)) (units s2))
     ∧ Forall (fun u => is_done u = false) (drop (length (received s2)) (units s2))).
Proof.
  intros H1 H2. split.
  - apply (Inv_fifo thrN countRepo collectRepo (processRepos_prog ctx order) ([], 0)).
    by apply (repoPool_reachable thrN ctx order ls1).
  - apply (Inv_fifo thrN id (fun a _ => a) (processCommits_prog sqlQuery dbs) tt).
    by apply (dbPool_reachable thrN ctx sqlQuery dbs ls2).
Qed.

Lemma window_is_fifo_witness :
  (processRepos_run 2 Scenario.ctx
     (start (processRepos_prog Scenario.ctx Scenario.order) ([], 0)) Scenario.schedule
   = Some Scenario.final
   ∧ processCommits_run 2 Scenario.ctx
       (start (processCommits_prog "select" ["A"; "B"; "C"]) tt) Cases.dbPrefix
     = Some Cases.dbMid)
  ∧ chanPool Cases.dbMid = seq 1 2
  ∧ Forall (fun u => is_done u = false) (drop 1 (units Cases.dbMid)).
Proof.
  assert (processRepos_run 2 Scenario.ctx
            (start (processRepos_prog Scenario.ctx Scenario.order) ([], 0))
            Scenario.schedule = Some Scenario.final) as H1
    by (vm_compute; reflexivity).
  assert (processCommits_run 2 Scenario.ctx
            (start (processCommits_prog "select" ["A"; "B"; "C"]) tt) Cases.dbPrefix
          = Some Cases.dbMid) as H2
    by (vm_compute; reflexivity).
  split; [exact (conj H1 H2)|].
  destruct (window_is_fifo 2 Scenario.ctx Scenario.order "select" ["A"; "B"; "C"]
              Scenario.schedule Cases.dbPrefix _ _ H1 H2) as [_ (Hw & _ & Hd)].
  split; [exact Hw|exact Hd].
Defined.

Lemma Inv_prefix {Item Res Acc SeqObs : Type} thrN spawned collect
    (prog : list (Instr Item SeqObs)) (acc0 : Acc) (s : Pool Item Res Acc SeqObs) :
  Inv thrN spawned collect prog acc0 s →
  ∃ consumed, prog = consumed ++ todo s
              ∧ spawns consumed = (units s).*1
              ∧ (pc s ≠ PcAborted → Forall passable consumed)
              ∧ (pc s = PcDrain ∨ pc s = PcReturned → todo s = []).
Proof. intros [dn pd cs H1 H2 H3 H4 H5 Hg Hi Hq H7 H8 H9]. by exists cs. Qed.

Lemma start_unthrottled {Item Res Acc SeqObs : Type}
    (prog : list (Instr Item SeqObs)) (acc0 : Acc) :
  pc (start (Res := Res) prog acc0) ≠ PcAwait
  ∧ (pc (start (Res := Res) prog acc0) = PcLoop →
     Forall (fun u => is_done u = false) (units (start (Res := Res) prog acc0))).
Proof. split; [done|]. intros _. constructor. Qed.

Lemma processRepos_prog_slack thrN ctx order :
  thrN ≤ 0 ∨ Z.of_nat (length (concat (order.*2))) < thrN →
  slack thrN (processRepos_prog ctx order).
Proof.
  pose proof (sublist_length _ _ (processRepos_prog_spawns_sublist ctx order)) as H.
  rewrite length_fmap in H. unfold slack, RepoItem in *. lia.
Qed.

Lemma processCommits_prog_slack thrN sqlQuery dbs :
  thrN ≤ 0 ∨ Z.of_nat (length dbs) < thrN →
  slack (SeqObs := unit) thrN (processCommits_prog sqlQuery dbs).
Proof.
  unfold slack.
  rewrite <- (processCommits_prog_spawns sqlQuery dbs) at 1.
  by rewrite length_fmap.
Qed.

(** X2. When the limit [thrN] is zero or negative, or larger than the
    number of work items, the test [len(chanPool) == thrN] never
    succeeds: in no reachable state does the dispatcher wait for a
    goroutine inside its loop, and as long as it is in the loop it has
    received nothing, so every goroutine started so far is still in the
    window. A limit that is not positive does not stop the pools; it
    removes the bound. *)
Theorem slack_limit_never_waits (thrN : Z) (ctx : Ctx)
    (order : list (string * list string)) (sqlQuery : string) (dbs : list string)
    (ls1 : list (Label DirObs World)) (ls2 : list (Label unit World))
    (s1 : Pool RepoItem string RepoAcc DirObs) (s2 : Pool DBItem bool unit unit) :
  thrN ≤ 0 ∨ Z.of_nat (length (concat (order.*2))) < thrN →
  thrN ≤ 0 ∨ Z.of_nat (length dbs) < thrN →
  processRepos_run thrN ctx (start (processRepos_prog ctx order) ([], 0)) ls1 = Some s1 →
  processCommits_run thrN ctx (start (processCommits_prog sqlQuery dbs) tt) ls2 = Some s2 →
  (pc s1 ≠ PcAwait
   ∧ (pc s1 = PcLoop → received s1 = [] ∧ in_flight s1 = length (units s1)))
  ∧ (pc s2 ≠ PcAwait
     ∧ (pc s2 = PcLoop → received s2 = [] ∧ in_flight s2 = length (units s2))).
Proof.
  intros Hk1 Hk2 H1 H2. split.
  - destruct (unthrottled_run thrN (repoUnit ctx) countRepo collectRepo
                (processRepos_prog ctx order) ([], 0) collectRepo_countRepo ls1 _ s1
                (processRepos_prog_slack _ _ _ Hk1) (Inv_start _ _ _ _ _)
                (start_unthrottled _ _) H1)
      as [Ha Hl].
    split; [exact Ha|]. intros Hpc.
    destruct (notdone_in_flight _ (Hl Hpc)) as [Hf Hr]. by split.
  - destruct (unthrottled_run thrN (dbUnit ctx) id (fun a _ => a)
                (processCommits_prog sqlQuery dbs) tt (fun _ _ => eq_refl) ls2 _ s2
                (processCommits_prog_slack _ _ _ Hk2) (Inv_start _ _ _ _ _)
                (start_unthrottled _ _) H2)
      as [Ha Hl].
    split; [exact Ha|]. intros Hpc.
    destruct (notdone_in_flight _ (Hl Hpc)) as [Hf Hr]. by split.
Qed.

Lemma slack_limit_never_waits_witness :
  ((0 ≤ 0 ∨ Z.of_nat (length (concat (Scenario.order.*2))) < 0)
   ∧ (0 ≤ 0 ∨ Z.of_nat (length ["A"; "B"]) < 0)
   ∧ processRepos_run 0 Scenario.ctx
       (start (processRepos_prog Scenario.ctx Scenario.order) ([], 0)) Cases.freeSchedule
     = Some Scenario.final
   ∧ processCommits_run 0 Scenario.ctx
       (start (processCommits_prog "select" ["A"; "B"]) tt) Cases.freePrefix
     = Some Cases.freeMid)
  ∧ pc Cases.freeMid = PcLoop
  ∧ received Cases.freeMid = [] ∧ in_flight Cases.freeMid = 2%nat.
Proof.
  assert (0 ≤ 0 ∨ Z.of_nat (length (concat (Scenario.order.*2))) < 0) as Hk1 by (left; lia).
  assert (0 ≤ 0 ∨ Z.of_nat (length ["A"; "B"]) < 0) as Hk2 by (left; lia).
  assert (processRepos_run 0 Scenario.ctx
            (start (processRepos_prog Scenario.ctx Scenario.order) ([], 0))
            Cases.freeSchedule = Some Scenario.final) as H1
    by (vm_compute; reflexivity).
  assert (processCommits_run 0 Scenario.ctx
            (start (processCommits_prog "select" ["A"; "B"]) tt) Cases.freePrefix
          = Some Cases.freeMid) as H2
    by (vm_compute; reflexivity).
  split; [exact (conj Hk1 (conj Hk2 (conj H1 H2)))|]. split; [reflexivity|].
  destruct (slack_limit_never_waits 0 Scenario.ctx Scenario.order "select" ["A"; "B"]
              Cases.freeSchedule Cases.freePrefix _ _ Hk1 Hk2 H1 H2) as [_ [_ Hl]].
  exact (Hl eq_refl).
Defined.

(** X3. In every state the repo pool can reach, under every limit and
    every interleaving, [allOkRepos] holds the non-empty values received
    so far and is a subsequence of the identifiers in the order of the
    loops over [allRepos]: it is in dispatch order, not in the order the
    goroutines finish. [checked] is the number of goroutines started,
    so successes never exceed [checked], and [checked] never exceeds the
    number of identifiers. *)
Theorem allOkRepos_in_dispatch_order (thrN : Z) (ctx : Ctx)
    (order : list (string * list string))
    (ls : list (Label DirObs World)) (s : Pool RepoItem string RepoAcc DirObs) :
  processRepos_run thrN ctx (start (processRepos_prog ctx order) ([], 0)) ls = Some s →
  (acc s).1 = filter (fun r => r ≠ "") (received s)
  ∧ (acc s).1 `sublist_of` concat (order.*2)
  ∧ (acc s).2 = Z.of_nat (length (units s))
  ∧ Z.of_nat (length (acc s).1) ≤ (acc s).2 ≤ Z.of_nat (length (concat (order.*2))).
Proof.
  intros Hrun. destruct (repoPool_reachable thrN ctx order ls s Hrun) as [HI HJ].
  destruct (Inv_counts thrN countRepo collectRepo _ _ s HI) as (Hacc & Hle & _ & _).
  destruct (Inv_fifo thrN countRepo collectRepo _ _ s HI) as (_ & Hd & Hnd).
  destruct (Inv_prefix _ _ _ _ _ _ HI) as (cs & Hp & Hu & _ & _).
  rewrite foldl_collectRepo, iter_countRepo in Hacc. cbn [app] in Hacc.
  rewrite Hacc. cbn [fst snd].
  assert (filter (fun r => r ≠ "") (received s) `sublist_of` concat (order.*2)) as Hsub.
  { set (n := length (received s)) in *.
    assert (received s
            = omap (fun u : RepoItem * UnitState string =>
                      match u.2 with Done r => Some r | _ => None end)
                (take n (units s))) as Hr.
    { unfold received. rewrite <- (take_drop n (units s)) at 1.
      rewrite omap_app.
      destruct (notdone_in_flight _ Hnd) as [_ ->]. by rewrite (right_id_L [] (++)). }
    pose proof (justified_received (repoUnit ctx) (take n (units s))
                  (Forall_take _ _ _ HJ) Hd) as HF.
    rewrite <- Hr in HF.
    transitivity ((take n (units s)).*1.*1).
    { apply reports_sublist. eapply Forall2_impl; [exact HF|].
      intros it r [o Ho]. by apply (repoUnit_Ok ctx it o). }
    transitivity ((units s).*1.*1).
    { rewrite !fmap_take. apply sublist_take. }
    transitivity ((spawns (processRepos_prog ctx order)).*1).
    { rewrite Hp, spawns_app, Hu, fmap_app. by apply sublist_inserts_r. }
    apply processRepos_prog_spawns_sublist. }
  split; [done|]. split; [done|]. split; [lia|].
  pose proof (sublist_length _ _ (processRepos_prog_spawns_sublist ctx order)) as Hlen.
  rewrite length_fmap in Hlen.
  assert (length (filter (fun r => r ≠ "") (received s)) ≤ length (received s))%nat
    by apply length_filter.
  unfold RepoItem in *. lia.
Qed.

Lemma allOkRepos_in_dispatch_order_witness :
  processRepos_run 2 Scenario.ctx
    (start (processRepos_prog Scenario.ctx Scenario.order) ([], 0)) Cases.lateSchedule
  = Some Scenario.okFinal
  ∧ (acc Scenario.okFinal).1 = ["org1/repoX"; "org1/repoY"; "org2/repoZ"]
  ∧ (acc Scenario.okFinal).1 `sublist_of` concat (Scenario.order.*2).
Proof.
  assert (processRepos_run 2 Scenario.ctx
            (start (processRepos_prog Scenario.ctx Scenario.order) ([], 0))
            Cases.lateSchedule = Some Scenario.okFinal) as H
    by (vm_compute; reflexivity).
  split; [exact H|]. split; [reflexivity|].
  exact (proj1 (proj2 (allOkRepos_in_dispatch_order 2 Scenario.ctx Scenario.order
                         Cases.lateSchedule _ H))).
Defined.

(** ** The shard pool from its start *)




(** ** Identifiers the loop of [processRepos] cannot take *)

Lemma repoInstr_bare wd org repo :
  contains "/" repo = false →
  repoInstr wd org repo = ISeq (fun _ => Panic "index out of range").
Proof.
  intros H. unfold repoInstr, repoDir, index. by rewrite (Split_nosep _ _ H).
Qed.

Lemma processRepos_prog_elem ctx order org repos repo :
  (org, repos) ∈ order → repo ∈ repos →
  repoInstr (ReposDir ctx) org repo ∈ processRepos_prog ctx order.
Proof.
  intros Ho Hr. unfold processRepos_prog.
  induction order as [|e order IH]; [by inversion Ho|].
  cbn [map concat]. apply elem_of_app.
  apply elem_of_cons in Ho as [<-|Ho]; [left|right; by apply IH].
  unfold orgInstrs. cbn [fst snd]. apply elem_of_cons. right.
  apply list_elem_of_fmap. by exists repo.
Qed.

(** X5. [processRepos] takes [ary[1]] of every identifier without
    looking at the length of [ary] (lines 198-199). If some list of the
    map holds an identifier without a separator, the pool never gets to
    its return, under no limit and no interleaving: in every reachable
    state the dispatcher is still inside its loop, or the process has
    ended. The check of line 79 in [getRepos] is what keeps such an
    identifier out. *)
Theorem processRepos_bare_name_never_returns (thrN : Z) (ctx : Ctx)
    (order : list (string * list string)) (org : string) (repos : list string)
    (repo : string) (ls : list (Label DirObs World))
    (s : Pool RepoItem string RepoAcc DirObs) :
  (org, repos) ∈ order → repo ∈ repos → contains "/" repo = false →
  processRepos_run thrN ctx (start (processRepos_prog ctx order) ([], 0)) ls = Some s →
  pc s = PcLoop ∨ pc s = PcAwait ∨ pc s = PcAborted.
Proof.
  intros Ho Hr Hbare Hrun.
  destruct (repoPool_reachable thrN ctx order ls s Hrun) as [HI _].
  destruct (Inv_prefix _ _ _ _ _ _ HI) as (cs & Hp & _ & Hpass & Htodo).
  destruct (pc s) eqn:Hpc; auto.
  all: exfalso; rewrite Htodo, (right_id_L [] (++)) in Hp by auto; subst cs.
  all: pose proof (processRepos_prog_elem ctx order org repos repo Ho Hr) as Hin.
  all: rewrite (repoInstr_bare _ _ _ Hbare) in Hin.
  all: assert (Forall passable (processRepos_prog ctx order)) as Hall by (by apply Hpass).
  all: rewrite Forall_forall in Hall; by destruct (Hall _ Hin).
Qed.

Lemma processRepos_bare_name_never_returns_witness :
  contains "/" "bare" = false
  ∧ ∃ s, processRepos_run 2 Scenario.ctx
           (start (processRepos_prog Scenario.ctx [("org", ["org/x"; "bare"])]) ([], 0))
           [LSeq Scenario.dirOk; LSpawn; LSeq Scenario.dirOk] = Some s
         ∧ (pc s = PcLoop ∨ pc s = PcAwait ∨ pc s = PcAborted).
Proof.
  split; [reflexivity|].
  destruct (processRepos_run 2 Scenario.ctx
              (start (processRepos_prog Scenario.ctx [("org", ["org/x"; "bare"])]) ([], 0))
              [LSeq Scenario.dirOk; LSpawn; LSeq Scenario.dirOk]) as [s|] eqn:Hrun;
    [|vm_compute in Hrun; discriminate Hrun].
  exists s. split; [reflexivity|].
  apply (processRepos_bare_name_never_returns 2 Scenario.ctx
           [("org", ["org/x"; "bare"])] "org" ["org/x"; "bare"] "bare"
           [LSeq Scenario.dirOk; LSpawn; LSeq Scenario.dirOk] s).
  - apply elem_of_cons. by left.
  - apply elem_of_cons. right. apply elem_of_cons. by left.
  - reflexivity.
  - exact Hrun.
Defined.

(** ** Directories *)

(** X6. Making sure of a directory (lines 161-171 and 182-192), for a
    non-empty path [wd] looked up without its trailing separator. It
    succeeds in two cases only: the directory is there, or the path is
    absent, [os.Mkdir] succeeds and the directory is there afterwards.
    Otherwise it ends in [lib.FatalOnError]; when [os.Mkdir] reports
    success and the path is still absent, the error is
    [failed to create directory: <wd>]. It never panics on a non-empty
    path, and does on the empty one. *)
Theorem ensureDir_outcome (before : Stat) (mkdir : option error) (after : Stat)
    (a : ascii) (s : string) :
  let wd := String a s in
  let p := statPath wd in
  (ensureDir before mkdir after wd = Ok tt
   ↔ before p = StatInfo true
     ∨ ((∃ e, before p = StatError e true) ∧ mkdir = None ∧ after p = StatInfo true))
  ∧ (ensureDir before mkdir after wd = Ok tt
     ∨ ∃ e, ensureDir before mkdir after wd = Fatal e)
  ∧ (∀ e e', before p = StatError e true → mkdir = None → after p = StatError e' true →
       ensureDir before mkdir after wd = Fatal ("failed to create directory: " +:+ wd))
  ∧ (∀ e e', before p = StatError e true → mkdir = Some e' →
       ensureDir before mkdir after wd = Fatal e')
  ∧ ensureDir before mkdir after "" = Panic "slice bounds out of range".
Proof.
  intros wd p. subst wd p. unfold ensureDir. rewrite !dirExists_spec.
  destruct (before _) as [[]|e1 []]; destruct mkdir as [m|];
    destruct (after _) as [[]|e2 []]; cbn -[statPath].
  all: repeat split; eauto.
  all: try (intros [?|([? ?] & ? & ?)]; congruence).
  all: try (intros; congruence).
  all: try (right; split; eauto).
Qed.

Example ensureDir_examples :
  ensureDir (fun _ => StatError "stat: no such file or directory" true) None
    (fun _ => StatInfo true) "/r/" = Ok tt
  ∧ ensureDir (fun _ => StatInfo false) None (fun _ => StatInfo true) "/r/"
    = Fatal "/r: exists, but is not a directory"
  ∧ ensureDir (fun _ => StatError "stat: no such file or directory" true)
      (Some "mkdir /r/: permission denied") (fun _ => StatInfo true) "/r/"
    = Fatal "mkdir /r/: permission denied".
Proof. repeat split; vm_compute; reflexivity. Qed.

(** X7. [dirExists] drops one trailing separator, and only one, before
    it asks [os.Stat]: a path and the same path followed by ['/'] get
    the same answer; a path that ends in two separators is looked up
    with one; and the root directory ["/"] is looked up as the empty
    path. *)
Theorem dirExists_trailing_separator (stat : Stat) (root : string) :
  (∀ a : ascii, a ≠ "/"%char →
     dirExists stat ((root +:+ String a "") +:+ "/") = dirExists stat (root +:+ String a "")
     ∧ dirExists stat (root +:+ String a "")
       = Ok (classify (root +:+ String a "") (stat (root +:+ String a ""))))
  ∧ dirExists stat ((root +:+ "/") +:+ "/")
    = Ok (classify (root +:+ "/") (stat (root +:+ "/")))
  ∧ dirExists stat "/" = Ok (classify "" (stat "")).
Proof.
  assert (∀ x : string, ∃ b t, x +:+ "/" = String b t) as Hne.
  { intros [|b t]; [by exists "/"%char, ""|by exists b, (t +:+ "/")]. }
  split; [|split; [|by rewrite dirExists_spec]].
  - intros a Ha.
    destruct (Hne (root +:+ String a "")) as (b & t & Hbt).
    assert (∃ b' t', root +:+ String a "" = String b' t') as (b' & t' & Hbt').
    { destruct root as [|c r]; [by exists a, ""|by exists c, (r +:+ String a "")]. }
    rewrite Hbt, dirExists_spec, <- Hbt, statPath_trailing.
    rewrite Hbt', dirExists_spec, <- Hbt', (statPath_other _ _ Ha). done.
  - destruct (Hne (root +:+ "/")) as (b & t & Hbt).
    by rewrite Hbt, dirExists_spec, <- Hbt, statPath_trailing.
Qed.

(** ** What the goroutines write *)


Example processRepo_warning :
  stderrs (trace (processRepo Scenario.world (set_exec Scenario.ctx false true)
                    "org1/repoY" "/r/org1/repoY"))
  = ["Warining git-clone failed: org1/repoY (took 1s): exit status 128" +:+ LF]
  ∧ logged (trace (processRepo Scenario.world (set_exec Scenario.ctx false true)
                     "org1/repoY" "/r/org1/repoY")) = [].
Proof. split; vm_compute; reflexivity. Qed.

Lemma scanShas_rows (commits : list (string * string)) (acc : list (string * string)) :
  scanShas (map (fun c => RowCols [c.1; c.2]) commits) acc
  = Ok (acc ++ map (fun c => (c.2, c.1)) commits).
Proof.
  revert acc. induction commits as [|[sha repo] commits IH]; intros acc; cbn.
  - by rewrite (right_id_L [] (++)).
  - rewrite IH. by rewrite <- (assoc_L (++)).
Qed.

Lemma emit_bind {V A} (e : Event V) (k : Proc V A) :
  (emit e;; k) = mkProc (e :: trace k) (outcome k).
Proof. reflexivity. Qed.

Lemma printCommits_stdouts {V} db (shas : list (string * string)) : ∀ i,
  stdouts (trace (printCommits (V := V) db i shas))
  = imap (fun k c => "Processing commit " +:+ fmt_06d (i + Z.of_nat k) +:+ " " +:+ db
                       +:+ ":" +:+ c.1 +:+ ":" +:+ c.2 +:+ LF) shas
  ∧ logged (trace (printCommits (V := V) db i shas)) = [].
Proof.
  induction shas as [|[repo sha] shas IH]; intros i; [done|].
  destruct (IH (i + 1)) as [IH1 IH2].
  cbn [printCommits]. rewrite emit_bind. cbn [trace].
  split.
  - change (stdouts (EvStdout ?m :: ?t)) with (m :: stdouts t).
    rewrite IH1. cbn [imap fst snd]. f_equal.
    + by rewrite Z.add_0_r.
    + apply imap_ext. intros k c _. unfold compose. replace (i + 1 + Z.of_nat k) with (i + Z.of_nat (S k)) by lia. done.
  - exact IH2.
Qed.

Lemma printCommits_queried {V} db (shas : list (string * string)) : ∀ i,
  queried (trace (printCommits (V := V) db i shas)) = [].
Proof.
  induction shas as [|[repo sha] shas IH]; intros i; [done|].
  cbn [printCommits]. rewrite emit_bind. cbn [trace]. apply IH.
Qed.

Lemma omap_snoc_None {A B} (f : A → option B) (l : list A) (x : A) :
  f x = None → omap f (l ++ [x]) = omap f l.
Proof. intros H. rewrite omap_app. cbn. rewrite H. by rewrite (right_id_L [] (++)). Qed.

(** X9. The shard scanner on a query that works. When the query
    answers with rows of two columns, a hash and a repository each, and
    no error, the goroutine sends the one query, prints one line per
    row to standard output, in the order of the rows, numbered from
    zero with six digits, [Processing commit <number>
    <db>:<repository>:<hash>], and then sends [true] on its channel,
    once and as its last action. It logs nothing unless [Debug] is
    above zero, and then the database before the query and the number
    of commits after it. *)
Theorem processCommitsDB_prints_commits (w : World) (ctx : Ctx) (db query : string)
    (commits : list (string * string)) :
  w_query w db query = QueryRows (map (fun c => RowCols [c.1; c.2]) commits) None →
  let p := processCommitsDB w ctx db query in
  outcome p = Ok tt
  ∧ queried (trace p) = [(db, query)]
  ∧ stdouts (trace p)
    = imap (fun k c => "Processing commit " +:+ fmt_06d (Z.of_nat k) +:+ " " +:+ db
                         +:+ ":" +:+ c.2 +:+ ":" +:+ c.1 +:+ LF) commits
  ∧ sends (trace p) = [true]
  ∧ last (trace p) = Some (EvSend true)
  ∧ (Debug ctx ≤ 0 → logged (trace p) = [])
  ∧ (0 < Debug ctx →
     logged (trace p)
     = ["Running on database: " +:+ db +:+ LF;
        "Database '" +:+ db +:+ "' processed in " +:+ w_took w +:+ ", commits: "
          +:+ fmt_d (Z.of_nat (length commits)) +:+ LF]).
Proof.
  intros Hq p. subst p. unfold processCommitsDB. rewrite Hq, scanShas_rows.
  cbn [app].
  assert (∀ f : nat → string * string → string,
            imap f (map (fun c : string * string => (c.2, c.1)) commits)
            = imap (fun k c => f k (c.2, c.1)) commits) as Himap.
  { clear. induction commits as [|c commits IH]; intros f; [done|].
    cbn [map imap]. f_equal. apply IH. }
  pose proof (printCommits_shape (V := bool) db 0
                (map (fun c : string * string => (c.2, c.1)) commits)) as [Ho Hs].
  pose proof (printCommits_stdouts (V := bool) db
                (map (fun c : string * string => (c.2, c.1)) commits) 0) as [H1 H2].
  rewrite Himap in H1. cbn [fst snd] in H1.
  pose proof (printCommits_queried (V := bool) db
                (map (fun c : string * string => (c.2, c.1)) commits) 0) as Hq'.
  assert (length (map (fun c : string * string => (c.2, c.1)) commits) = length commits)
    as Hlen by apply length_map.
  unfold when.
  destruct (0 <? Debug ctx) eqn:HD; [apply Z.ltb_lt in HD|apply Z.ltb_ge in HD].
  all: cbn -[omap printCommits map defer]; rewrite ?Hlen.
  all: set (P := printCommits db 0 _) in *; clearbody P; destruct P as [tr o].
  all: cbn [trace outcome] in Ho, Hs, H1, H2, Hq'; subst o.
  all: unfold defer; cbn [trace outcome emit app].
  all: split; [done|].
  all: split; [unfold queried in *; rewrite !app_comm_cons, omap_snoc_None by done;
               cbn; by rewrite Hq'|].
  all: split; [unfold stdouts in *; rewrite !app_comm_cons, omap_snoc_None by done;
               cbn; exact H1|].
  all: split; [cbn [sends]; by rewrite sends_app, Hs|].
  all: split; [rewrite !app_comm_cons; apply last_snoc|].
  all: split; intros HD'; try lia.
  all: unfold logged in *; rewrite !app_comm_cons, omap_snoc_None by done;
    cbn; by rewrite H2.
Qed.

Lemma processCommitsDB_prints_commits_witness :
  w_query Scenario.world "A" "select" = QueryRows [RowCols ["4f0e"; "org1/repoX"]] None
  ∧ stdouts (trace (processCommitsDB Scenario.world Scenario.ctx "A" "select"))
    = ["Processing commit 000000 A:org1/repoX:4f0e" +:+ LF]
  ∧ sends (trace (processCommitsDB Scenario.world Scenario.ctx "A" "select")) = [true].
Proof.
  split; [reflexivity|].
  destruct (processCommitsDB_prints_commits Scenario.world Scenario.ctx "A" "select"
              [("4f0e", "org1/repoX")] eq_refl) as (_ & _ & H1 & H2 & _).
  split; [exact H1|exact H2].
Defined.

(** ** More on [getRepos] *)

Lemma addRepos_no_panic repos : ∀ allRepos msg, addRepos allRepos repos ≠ Panic msg.
Proof.
  induction repos as [|r repos IH]; intros allRepos msg; cbn [addRepos]; [done|].
  destruct (decide (wellFormed r)) as [Hw|Hw].
  - rewrite (addRepo_ok _ _ Hw). cbn. apply IH.
  - rewrite (addRepo_bad _ _ Hw). done.
Qed.

Lemma addRepos_Ok_wellFormed repos : ∀ allRepos allRepos',
  addRepos allRepos repos = Ok allRepos' → Forall wellFormed repos.
Proof.
  induction repos as [|r repos IH]; intros m m'; cbn [addRepos]; [constructor|].
  destruct (addRepo m r) as [m1| |] eqn:H1; obind; try done.
  intros H. constructor; [by apply (addRepo_Ok_wellFormed _ _ _ H1)|by apply (IH _ _ H)].
Qed.

Lemma scanRepos_bad rows : ∀ acc r e,
  r ∈ rows → scan1 r = inr e → ∃ e', scanRepos rows acc = Fatal e'.
Proof.
  induction rows as [|r0 rows IH]; intros acc r e Hin Hr; [by inversion Hin|].
  cbn [scanRepos]. destruct (scan1 r0) as [a|e0] eqn:H0; [|eauto].
  apply elem_of_cons in Hin as [->|Hin]; [congruence|]. by eapply IH.
Qed.

Lemma indexDB_outcome w allRepos db :
  (∃ allRepos' repos, indexDB w allRepos db = Ok allRepos'
                      ∧ shardRepos w db = Some repos ∧ Forall wellFormed repos)
  ∨ ∃ e, indexDB w allRepos db = Fatal e.
Proof.
  unfold indexDB, shardRepos.
  destruct (w_query w db reposQuery) as [e|rows rowsErr]; [eauto|].
  destruct (scanRepos rows []) as [repos|e|msg] eqn:Hs; obind; [|eauto|].
  - destruct rowsErr as [e|]; obind; [eauto|].
    destruct (addRepos allRepos repos) as [m|e|msg] eqn:Ha; [|eauto|].
    + left. exists m, repos. split; [done|]. split; [done|].
      by apply (addRepos_Ok_wellFormed _ _ _ Ha).
    + by apply addRepos_no_panic in Ha.
  - by apply scanRepos_no_panic in Hs.
Qed.

Lemma indexDBs_outcome w order : ∀ allRepos,
  (∃ allRepos', indexDBs w allRepos order = Ok allRepos'
     ∧ ∀ db, db ∈ order →
         ∃ repos, shardRepos w db = Some repos ∧ Forall wellFormed repos)
  ∨ ∃ e, indexDBs w allRepos order = Fatal e.
Proof.
  induction order as [|db order IH]; intros m; cbn [indexDBs].
  - left. exists m. split; [done|]. intros db Hin. by inversion Hin.
  - destruct (indexDB_outcome w m db) as [(m1 & repos & -> & Hs & Hwf)|[e ->]]; obind;
      [|eauto].
    destruct (IH m1) as [(m2 & -> & H2)|[e ->]]; [|eauto].
    left. exists m2. split; [done|]. intros db' Hin.
    apply elem_of_cons in Hin as [->|Hin]; eauto.
Qed.

Lemma indexDBs_fatal w order : ∀ allRepos db,
  db ∈ order → shardRepos w db = None → ∃ e, indexDBs w allRepos order = Fatal e.
Proof.
  intros m db Hin Hnone.
  destruct (indexDBs_outcome w order m) as [(m' & _ & H)|?]; [|done].
  destruct (H db Hin) as (repos & Hs & _). congruence.
Qed.

(** X10. [getRepos] returns a map or ends in [lib.FatalOnError]; it
    never panics. It returns no partial result: when the query of one
    shard that is read fails, or its result set ends with an error, or
    one of its rows does not scan into the one string, [getRepos] is
    fatal, whatever the other shards hold and in whatever order they
    are read. *)
Theorem getRepos_all_or_nothing (DataDir : string) (w : World) (ctx : Ctx)
    (order : list string) :
  ((∃ r, getRepos DataDir w ctx order = Ok r)
   ∨ ∃ e, getRepos DataDir w ctx order = Fatal e)
  ∧ (∀ db, db ∈ order →
       (∃ e, w_query w db reposQuery = QueryError e)
       ∨ (∃ rows e, w_query w db reposQuery = QueryRows rows (Some e))
       ∨ (∃ rows rowsErr e, w_query w db reposQuery = QueryRows rows rowsErr
                            ∧ RowBad e ∈ rows)
       ∨ (∃ rows rowsErr cols, w_query w db reposQuery = QueryRows rows rowsErr
                               ∧ RowCols cols ∈ rows ∧ length cols ≠ 1%nat) →
       ∃ e, getRepos DataDir w ctx order = Fatal e).
Proof.
  unfold getRepos.
  destruct (w_readFile w _) as [e|data]; obind; [split; eauto|].
  destruct (w_unmarshal w data) as [e|projects]; obind; [split; eauto|].
  split.
  - destruct (indexDBs_outcome w order ∅) as [(m & -> & _)|[e ->]]; cbn; eauto.
  - intros db Hin Hbad.
    destruct (indexDBs_fatal w order ∅ db Hin) as [e ->]; [|cbn; eauto].
    unfold shardRepos.
    destruct Hbad as [[e ->]|[(rows & e & ->)|[(rows & rowsErr & e & -> & Hr)
                                              |(rows & rowsErr & cols & -> & Hr & Hc)]]].
    + done.
    + done.
    + destruct (scanRepos_bad rows [] (RowBad e) e Hr eq_refl) as [e' ->].
      by destruct rowsErr.
    + assert (∃ e, scan1 (RowCols cols) = inr e) as [e He].
      { destruct cols as [|a [|b cols]]; cbn in *; eauto. done. }
      destruct (scanRepos_bad rows [] (RowCols cols) e Hr He) as [e' ->].
      by destruct rowsErr.
Qed.

Example getRepos_shard_down :
  getRepos Scenario.DataDir Scenario.world Scenario.ctx ["A"; "Z"; "B"]
  = Fatal "pq: database does not exist".
Proof. vm_compute. reflexivity. Qed.

Lemma allShardRepos_perm w order1 order2 :
  order1 ≡ₚ order2 → allShardRepos w order1 ≡ₚ allShardRepos w order2.
Proof.
  unfold allShardRepos. induction 1 as [|db l1 l2 _ IH|a b l|l1 l2 l3 _ IH1 _ IH2];
    cbn [map concat].
  - done.
  - by rewrite IH.
  - rewrite !(assoc_L (++)). f_equiv. apply Permutation_app_comm.
  - by rewrite IH1.
Qed.

(** X11. The order in which [range dbs] walks through the shards does
    not decide whether [getRepos] returns, nor what it returns up to
    the order inside the lists: if it returns for one order of the
    shards, it returns for every permutation of them, with the same
    set of databases and, for every organization, a list holding the
    same identifiers the same number of times. *)
Theorem getRepos_order_of_shards (DataDir : string) (w : World) (ctx : Ctx)
    (order1 order2 : list string) (dbs : gmap string bool)
    (allRepos1 : gmap string (list string)) :
  order1 ≡ₚ order2 →
  getRepos DataDir w ctx order1 = Ok (dbs, allRepos1) →
  ∃ allRepos2,
    getRepos DataDir w ctx order2 = Ok (dbs, allRepos2)
    ∧ ∀ org, default [] (allRepos1 !! org) ≡ₚ default [] (allRepos2 !! org).
Proof.
  intros Hperm. unfold getRepos.
  destruct (w_readFile w _) as [e|data]; obind; [done|].
  destruct (w_unmarshal w data) as [e|projects]; obind; [done|].
  destruct (indexDBs_outcome w order1 ∅) as [(m1 & Hm1 & Hgood)|[e ->]]; [|done].
  rewrite Hm1. obind. intros [= <- <-].
  destruct (indexDBs_ok w order1 ∅ Hgood) as (m1' & Hm1' & Hl1).
  rewrite Hm1 in Hm1'. injection Hm1' as <-.
  destruct (indexDBs_ok w order2 ∅) as (m2 & Hm2 & Hl2).
  { intros db Hin. apply Hgood. by rewrite Hperm. }
  exists m2. rewrite Hm2. split; [done|].
  intros org. rewrite Hl1, Hl2, lookup_empty. cbn [default app].
  by rewrite (allShardRepos_perm w _ _ Hperm).
Qed.

Lemma getRepos_order_of_shards_witness :
  ["A"; "B"] ≡ₚ ["B"; "A"]
  ∧ getRepos Scenario.DataDir Scenario.dupWorld Scenario.ctx ["A"; "B"]
    = Ok ({[ "A" := true; "B" := true ]},
          {[ "org1" := ["org1/repoX"; "org1/repoY"; "org1/repoX"] ]})
  ∧ ∃ allRepos2,
      getRepos Scenario.DataDir Scenario.dupWorld Scenario.ctx ["B"; "A"]
      = Ok ({[ "A" := true; "B" := true ]}, allRepos2)
      ∧ ["org1/repoX"; "org1/repoY"; "org1/repoX"] ≡ₚ default [] (allRepos2 !! "org1").
Proof.
  assert (["A"; "B"] ≡ₚ ["B"; "A"]) as Hp by apply Permutation_swap.
  assert (getRepos Scenario.DataDir Scenario.dupWorld Scenario.ctx ["A"; "B"]
          = Ok ({[ "A" := true; "B" := true ]},
                {[ "org1" := ["org1/repoX"; "org1/repoY"; "org1/repoX"] ]})) as Hg
    by (vm_compute; reflexivity).
  split; [exact Hp|]. split; [exact Hg|].
  destruct (getRepos_order_of_shards Scenario.DataDir Scenario.dupWorld Scenario.ctx
              ["A"; "B"] ["B"; "A"] _ _ Hp Hg) as (m2 & H2 & Hl).
  exists m2. split; [exact H2|]. exact (Hl "org1").
Defined.

(** ** From [getRepos] to [processRepos], and to the report *)

(** X12. What [getRepos] returns is what the loop of [processRepos]
    can take: every identifier of the map is [<organization>/<name>]
    for the organization it is filed under, with no further separator,
    so [ary[1]] at line 199 is always there, and for every entry the
    loop makes sure of the directory [<ReposDir><organization>] and
    starts one sync unit per identifier, on [<ReposDir><identifier>],
    in the order of the list. *)
Theorem getRepos_feeds_processRepos (DataDir : string) (w : World) (ctx : Ctx)
    (order0 : list string) (dbs : gmap string bool)
    (allRepos : gmap string (list string)) (order : list (string * list string)) :
  getRepos DataDir w ctx order0 = Ok (dbs, allRepos) →
  Forall (fun e => allRepos !! e.1 = Some e.2) order →
  processRepos_prog ctx order
  = concat (map (fun e => ISeq (ensureDirObs (ReposDir ctx +:+ e.1))
                          :: map (fun repo => ISpawn (repo, ReposDir ctx +:+ repo)) e.2)
              order)
  ∧ Forall (fun e =>
              Forall (fun repo => ∃ name, repo = e.1 +:+ "/" +:+ name
                                          ∧ contains "/" e.1 = false
                                          ∧ contains "/" name = false) e.2) order.
Proof.
  intros Hget Horder.
  destruct (getRepos_filed _ _ _ _ _ _ Hget) as [Hfiled Hinstr].
  split.
  - unfold processRepos_prog. f_equal.
    induction Horder as [|[org repos] order Hl _ IH]; [done|].
    cbn [map]. rewrite IH. f_equal. unfold orgInstrs. cbn [fst snd] in *. f_equal.
    assert (∀ repo, repo ∈ repos →
              repoInstr (ReposDir ctx) org repo = ISpawn (repo, ReposDir ctx +:+ repo))
      as Hall by (intros repo; apply (Hinstr org repos repo Hl)).
    clear -Hall. induction repos as [|r repos IHr]; [done|].
    cbn [map]. rewrite (Hall r) by (by left). f_equal.
    apply IHr. intros repo Hin. apply Hall. by right.
  - eapply Forall_impl; [exact Horder|]. intros [org repos] Hl. cbn [fst snd] in *.
    eapply Forall_impl; [exact (Hfiled _ _ Hl)|]. intros repo [Hwf Horg].
    apply wellFormed_iff in Hwf as (org' & name & -> & Ho & Hn).
    assert (orgOf (org' +:+ "/" +:+ name) = org') as Horg'.
    { unfold orgOf. change (org' +:+ "/" +:+ name) with (org' +:+ String "/" name).
      by rewrite (Split_append _ _ _ Ho). }
    rewrite Horg' in Horg. subst org'. eauto.
Qed.

Lemma getRepos_feeds_processRepos_witness :
  getRepos Scenario.DataDir Scenario.world Scenario.ctx ["A"; "B"]
  = Ok ({[ "A" := true; "B" := true ]},
        {[ "org1" := ["org1/repoX"; "org1/repoY"]; "org2" := ["org2/repoZ"] ]})
  ∧ spawns (processRepos_prog Scenario.ctx Scenario.order)
    = [("org1/repoX", "/r/org1/repoX"); ("org1/repoY", "/r/org1/repoY");
       ("org2/repoZ", "/r/org2/repoZ")].
Proof.
  assert (getRepos Scenario.DataDir Scenario.world Scenario.ctx ["A"; "B"]
          = Ok ({[ "A" := true; "B" := true ]},
                {[ "org1" := ["org1/repoX"; "org1/repoY"]; "org2" := ["org2/repoZ"] ]}))
    as Hg by (vm_compute; reflexivity).
  split; [exact Hg|].
  destruct (getRepos_feeds_processRepos Scenario.DataDir Scenario.world Scenario.ctx
              ["A"; "B"] _ _ Scenario.order Hg) as [Hp _].
  { repeat constructor; vm_compute; reflexivity. }
  rewrite Hp. reflexivity.
Defined.

Lemma concat_length_perm (l1 l2 : list (string * list string)) :
  l1 ≡ₚ l2 → length (concat (l1.*2)) = length (concat (l2.*2)).
Proof.
  induction 1 as [|e l1 l2 _ IH|a b l|l1 l2 l3 _ IH1 _ IH2];
    cbn [fmap list_fmap concat]; rewrite ?length_app; lia.
Qed.

Lemma repoPool_checked thrN ctx order ls s :
  processRepos_run thrN ctx (start (processRepos_prog ctx order) ([], 0)) ls = Some s →
  pc s = PcReturned → (acc s).2 = Z.of_nat (length (concat (order.*2))).
Proof.
  intros Hrun Hpc. destruct (repoPool_reachable thrN ctx order ls s Hrun) as [HI _].
  destruct (Inv_returned _ _ _ _ _ _ HI Hpc) as (Hpass & _ & _ & _ & Hacc).
  rewrite foldl_collectRepo, iter_countRepo in Hacc. rewrite Hacc. cbn [snd].
  rewrite <- (processRepos_prog_spawns _ _ Hpass), length_fmap.
  unfold RepoItem. lia.
Qed.

(** X13. The report does not depend on the order in which [range]
    walks through the map. Take two runs of the pool over the same
    entries in two orders, under any limit and any two interleavings,
    both returned, in which the same units have succeeded: what
    [processRepos] prints and logs at its end is the same, event for
    event. *)
Theorem report_independent_of_map_order (thrN : Z) (ctx : Ctx)
    (order1 order2 : list (string * list string))
    (ls1 ls2 : list (Label DirObs World))
    (s1 s2 : Pool RepoItem string RepoAcc DirObs) :
  order1 ≡ₚ order2 →
  processRepos_run thrN ctx (start (processRepos_prog ctx order1) ([], 0)) ls1 = Some s1 →
  pc s1 = PcReturned →
  processRepos_run thrN ctx (start (processRepos_prog ctx order2) ([], 0)) ls2 = Some s2 →
  pc s2 = PcReturned →
  (acc s1).1 ≡ₚ (acc s2).1 →
  processRepos_end ctx (order1.*1) s1 = processRepos_end ctx (order2.*1) s2.
Proof.
  intros Hperm H1 Hpc1 H2 Hpc2 Hacc. unfold processRepos_end.
  rewrite (repoPool_checked _ _ _ _ _ H1 Hpc1), (repoPool_checked _ _ _ _ _ H2 Hpc2).
  rewrite (concat_length_perm _ _ Hperm).
  apply report_order_irrelevant; [exact Hacc|by apply fmap_Permutation].
Qed.

Lemma report_independent_of_map_order_witness :
  (Scenario.order ≡ₚ Cases.swapOrder
   ∧ processRepos_run 2 Scenario.ctx
       (start (processRepos_prog Scenario.ctx Scenario.order) ([], 0)) Scenario.okSchedule
     = Some Scenario.okFinal
   ∧ processRepos_run 2 Scenario.ctx
       (start (processRepos_prog Scenario.ctx Cases.swapOrder) ([], 0)) Cases.swapSchedule
     = Some Cases.swapFinal
   ∧ (acc Scenario.okFinal).1 ≠ (acc Cases.swapFinal).1)
  ∧ processRepos_end Scenario.ctx ["org1"; "org2"] Scenario.okFinal
    = processRepos_end Scenario.ctx ["org2"; "org1"] Cases.swapFinal.
Proof.
  assert (Scenario.order ≡ₚ Cases.swapOrder) as Hp by apply Permutation_swap.
  assert (processRepos_run 2 Scenario.ctx
            (start (processRepos_prog Scenario.ctx Scenario.order) ([], 0))
            Scenario.okSchedule = Some Scenario.okFinal) as H1
    by (vm_compute; reflexivity).
  assert (processRepos_run 2 Scenario.ctx
            (start (processRepos_prog Scenario.ctx Cases.swapOrder) ([], 0))
            Cases.swapSchedule = Some Cases.swapFinal) as H2
    by (vm_compute; reflexivity).
  assert ((acc Scenario.okFinal).1 ≠ (acc Cases.swapFinal).1) as Hne by discriminate.
  split; [exact (conj Hp (conj H1 (conj H2 Hne)))|].
  apply (report_independent_of_map_order 2 Scenario.ctx Scenario.order Cases.swapOrder
           Scenario.okSchedule Cases.swapSchedule _ _ Hp H1 eq_refl H2 eq_refl).
  cbn. rewrite (Permutation_swap "org1/repoX" "org2/repoZ").
  apply Permutation_skip.
  rewrite (Permutation_swap "org1/repoY" "org2/repoZ"). done.
Defined.
